(** * The fairness engine of covoit ([nextDriver], src/App.tsx)

    A shallow embedding of the driver-selection function and of the
    ride-creation call site, over IEEE-754 binary64 numbers (Rocq's
    primitive floats), the only number type JavaScript has; and of the
    pure parts of the pages around it: the selection of present members,
    the suggestion of the group page, the names and initials displayed,
    the group ID read from the route.

    What is taken from the JavaScript runtime rather than from the
    repository:
    - [Math.pow] is "implementation-approximated" in ECMAScript, so the
      engine is parametrised by it ([pow]); [Reference.pow] is one
      approximation, used to run the engine on concrete inputs;
    - [new Date(s).getTime()] is not modelled: a ride carries the time
      value of its date (a Number; NaN for an unparsable string);
    - [Array.prototype.sort] is stable (ECMAScript 2019); for a consistent
      comparator every stable sort gives the same array, here obtained by
      stable insertion;
    - strings are sequences of characters, and
      [String.prototype.toUpperCase], which depends on Unicode case
      mapping, is a parameter ([toUpperCase]). *)

From Stdlib Require Import ZArith Floats Lia.
From stdpp Require Import base option list gmap strings sorting.

(** ** JavaScript numbers *)

Module JS.

(** [ToBoolean] on a Number: [+0], [-0] and [NaN] are falsy. *)
Definition truthy (x : float) : bool := negb (is_zero x || is_nan x).

(** [v || 0] where [v] is [map.get(k)]: [undefined] and falsy numbers
    give [0]. *)
Definition or_zero (v : option float) : float :=
  match v with
  | Some x => if truthy x then x else 0%float
  | None => 0%float
  end.

(** [v ?? 0]: only [undefined] gives [0]. *)
Definition nullish_zero (v : option float) : float :=
  match v with
  | Some x => x
  | None => 0%float
  end.

Definition is_pos_zero (x : float) : bool := is_zero x && negb (get_sign x).
Definition is_neg_zero (x : float) : bool := is_zero x && get_sign x.

(** [Math.max(a, b)]: NaN if either argument is NaN; otherwise the loop of
    the specification, starting from [highest = a], with [+0] above [-0]. *)
Definition Math_max (a b : float) : float :=
  if is_nan a || is_nan b then nan
  else if is_pos_zero b && is_neg_zero a then b
  else if (a <? b)%float then b
  else a.

(** [x !== y] on Numbers. *)
Definition strict_ne (x y : float) : bool := negb (x =? y)%float.

(** [a || b] on a string-or-null and a possibly missing string: [null] and
    the empty string are falsy. *)
Definition or_else (a b : option string) : option string :=
  match a with
  | Some EmptyString | None => b
  | Some _ => a
  end.

End JS.

(** ** Types (src/App.tsx, "Types") *)

Record Member := mkMember {
  member_id : string;
  member_name : string;
  photoURL : option string;
  email : option string
}.

(** [date] is the time value [new Date(r.date).getTime()]. *)
Record Ride := mkRide {
  ride_id : option string;
  groupId : string;
  date : float;
  from : string;
  to : string;
  participants : list string;
  driverId : string
}.

Record Group := mkGroup {
  group_id : string;
  group_name : string;
  code : string;
  ownerId : string;
  members : list Member
}.

(** ** Array.prototype.sort *)

(** [insert cmp x l] puts [x] in front of the already ordered [l]: [x]
    stays before an element [y] unless [cmp x y > 0] (a NaN answer counts
    as [+0]). As [x] came before all of [l], ties keep the input order. *)
Fixpoint insert {A} (cmp : A -> A -> float) (x : A) (l : list A) : list A :=
  match l with
  | [] => [x]
  | y :: l' => if (0 <? cmp x y)%float then y :: insert cmp x l' else x :: l
  end.

Fixpoint sort {A} (cmp : A -> A -> float) (l : list A) : list A :=
  match l with
  | [] => []
  | x :: l' => insert cmp x (sort cmp l')
  end.

(** ** Simple Fairness Engine *)

(** The two local maps of [nextDriver]. *)
Record tally := mkTally {
  counts : gmap string float;
  lastDates : gmap string float
}.

(** [const DECAY = 0.92]: the binary64 number nearest to 0.92. *)
Definition DECAY : float := 0x1.d70a3d70a3d71p-1%float.

Section Engine.

(** [Math.pow] of the runtime. *)
Variable pow : float -> float -> float.

(** The [init] loop. *)
Definition init_member (st : tally) (m : string) : tally :=
  {| counts := <[m := 0%float]> (counts st);
     lastDates := <[m := 0%float]> (lastDates st) |}.

Definition init (present : list string) : tally :=
  foldl init_member (mkTally ∅ ∅) present.

Definition months (now d : float) : float :=
  JS.Math_max 0 ((now - d) / (1000 * 60 * 60 * 24 * 30))%float.

Definition weight (now d : float) : float := pow DECAY (months now d).

(** One iteration of [for (const r of history)]. *)
Definition record_ride (now : float) (st : tally) (r : Ride) : tally :=
  let d := date r in
  let weight := weight now d in
  if decide (is_Some (counts st !! driverId r)) then
    {| counts :=
         <[driverId r := (JS.or_zero (counts st !! driverId r) + 1 * weight)%float]> (counts st);
       lastDates :=
         <[driverId r := JS.Math_max (JS.or_zero (lastDates st !! driverId r)) d]> (lastDates st) |}
  else st.

Definition tally_of (now : float) (present : list string) (history : list Ride) : tally :=
  foldl (record_ride now) (init present) history.

(** The comparator handed to [sort]. *)
Definition compareFn (st : tally) (a b : string) : float :=
  let ca := JS.nullish_zero (counts st !! a) in
  let cb := JS.nullish_zero (counts st !! b) in
  if JS.strict_ne ca cb then (ca - cb)%float
  else
    let la := JS.nullish_zero (lastDates st !! a) in
    let lb := JS.nullish_zero (lastDates st !! b) in
    (la - lb)%float.

(** [nowISO ? new Date(nowISO) : new Date()], as a time value. [clock] is
    what [new Date()] reads; [nowISO] is the time value of the string
    when one is supplied. *)
Definition reference_time (clock : float) (nowISO : option float) : float :=
  match nowISO with
  | Some t => t
  | None => clock
  end.

(** [nextDriver({ present, history, nowISO })]; [None] is [null]. *)
Definition nextDriver (clock : float) (present : list string) (history : list Ride)
    (nowISO : option float) : option string :=
  if (length present =? 0)%nat then None
  else
    let now := reference_time clock nowISO in
    let st := tally_of now present history in
    head (sort (compareFn st) present).

(** The driver stored by the "Enregistrer" handler of [AddRideDialog]:
    [nextDriver({ present, history: [] }) || present[0]]. The dialog
    receives [group] and [present]; [rides] is the history that
    [GroupPage] holds next to it. *)
Definition addRide_driverId (clock : float) (group : Group) (rides : list Ride)
    (present : list string) : option string :=
  JS.or_else (nextDriver clock present [] None) (head present).

End Engine.

(** ** What the loop does to one member

    [record_ride] touches the two entries of the ride's driver only, so
    the entries of a member [m] after the loop are two folds over the
    history. *)

Section PerMember.

Variable pow : float -> float -> float.

Definition count_step (now : float) (m : string) (c : float) (r : Ride) : float :=
  if decide (driverId r = m) then (JS.or_zero (Some c) + 1 * weight pow now (date r))%float
  else c.

Definition last_step (m : string) (l : float) (r : Ride) : float :=
  if decide (driverId r = m) then JS.Math_max (JS.or_zero (Some l)) (date r)
  else l.

Definition member_count (now : float) (m : string) (history : list Ride) : float :=
  foldl (count_step now m) 0%float history.

Definition member_last (m : string) (history : list Ride) : float :=
  foldl (last_step m) 0%float history.

(** A ride is usable when its date parsed (the time value is not NaN) and
    [Math.pow] answered with a number that is not negative. *)
Definition ride_ok (now : float) (r : Ride) : bool :=
  negb (is_nan (date r)) && (0 <=? weight pow now (date r))%float.

(** Every ride driven by a present member is usable. *)
Definition well_formed (now : float) (present : list string) (history : list Ride) : bool :=
  forallb (fun r => implb (bool_decide (driverId r ∈ present)) (ride_ok now r)) history.

End PerMember.

(** ** The ranking order

    [ca], [cb], [la], [lb] as the comparator reads them. *)

Definition count_of (st : tally) (a : string) : float := JS.nullish_zero (counts st !! a).
Definition last_of (st : tally) (a : string) : float := JS.nullish_zero (lastDates st !! a).

(** [a] ranks strictly before [b]: fewer weighted drives, or as many and
    an earlier last drive. *)
Definition ranks_before (st : tally) (a b : string) : bool :=
  (count_of st a <? count_of st b)%float
  || ((count_of st a =? count_of st b)%float && (last_of st a <? last_of st b)%float).

Definition ranks_equal (st : tally) (a b : string) : bool :=
  (count_of st a =? count_of st b)%float && (last_of st a =? last_of st b)%float.

(** What the engine is handed of a ride: its date and its driver (the
    other fields blanked). *)
Definition history_entry (r : Ride) : Ride :=
  {| ride_id := None; groupId := EmptyString; date := date r; from := EmptyString;
     to := EmptyString; participants := []; driverId := driverId r |}.

(** The present list without its repeated IDs, first occurrences kept.
    The program has no such function: it is the list the result for a
    present list with repeated IDs is compared with. *)
Fixpoint dedup (l : list string) : list string :=
  match l with
  | [] => []
  | x :: l' => x :: filter (fun y => y ≠ x) (dedup l')
  end.

(** ** Binary64 numbers as integers

    Every finite binary64 number is a multiple of the smallest subnormal
    [2^emin]; [ord] is that multiple, with the infinities beyond. It orders
    the numbers as IEEE comparison does. *)

Module IEEE.
Local Open Scope Z_scope.

Definition ord_sf (f : spec_float) : Z :=
  match f with
  | S754_zero _ => 0
  | S754_nan => 0
  | S754_infinity s => cond_Zopp s (2 ^ (emax - emin))
  | S754_finite s m e => cond_Zopp s (Z.pos m * 2 ^ (e - emin))
  end.

Definition ord (x : float) : Z := ord_sf (Prim2SF x).

Definition sf_is_nan (f : spec_float) : bool :=
  match f with S754_nan => true | _ => false end.

(** Sign bit clear and not NaN: [+0], a positive number or [+Infinity]. *)
Definition sf_unsigned (f : spec_float) : bool :=
  match f with
  | S754_zero false | S754_infinity false | S754_finite false _ _ => true
  | _ => false
  end.

Definition unsigned (x : float) : bool := sf_unsigned (Prim2SF x).

Definition sf_is_finite (f : spec_float) : bool :=
  match f with
  | S754_zero _ | S754_finite _ _ _ => true
  | _ => false
  end.

Definition sf_valid (f : spec_float) : Prop := valid_binary f = true.

(** The result of rounding carries sign [s] and is not NaN. *)
Definition sf_signed (s : bool) (f : spec_float) : Prop :=
  match f with
  | S754_zero s' | S754_infinity s' | S754_finite s' _ _ => s' = s
  | S754_nan => False
  end.

(** ... and moreover is not a zero. *)
Definition sf_signed_nonzero (s : bool) (f : spec_float) : Prop :=
  match f with
  | S754_infinity s' | S754_finite s' _ _ => s' = s
  | _ => False
  end.

(** Lexicographic order on pairs of integers. *)
Definition lex_ltb (p q : Z * Z) : bool :=
  (p.1 <? q.1) || ((p.1 =? q.1) && (p.2 <? q.2)).

End IEEE.

(** The rank of a member as a pair of integers. *)
Definition zkey (st : tally) (a : string) : Z * Z :=
  (IEEE.ord (count_of st a), IEEE.ord (last_of st a)).

(** Every count and last-drive instant the comparator can read has a
    clear sign bit and is not NaN. *)
Definition tally_unsigned (st : tally) : Prop :=
  forall a, IEEE.unsigned (count_of st a) = true /\ IEEE.unsigned (last_of st a) = true.

(** [a] may stand before [b]: the key of [b] is not strictly smaller. *)
Definition key_le {A} (key : A -> Z * Z) (a b : A) : Prop :=
  IEEE.lex_ltb (key b) (key a) = false.

(** The first element of a list among those of least key: each element
    yields to the best of its tail only when that one is strictly
    smaller. *)
Definition pick_least {A} (key : A -> Z * Z) (x : A) (acc : option A) : A :=
  match acc with
  | Some y => if IEEE.lex_ltb (key y) (key x) then y else x
  | None => x
  end.

Definition first_least {A} (key : A -> Z * Z) (l : list A) : option A :=
  foldr (fun x acc => Some (pick_least key x acc)) None l.

(** ** A reference [Math.pow]

    One admissible approximation of [Math.pow] for a positive base: the
    exponent is read bit by bit, the integral bits paid with repeated
    squares of the base and the fractional bits with repeated square
    roots. It serves to run the engine; no theorem about the engine
    depends on it. *)

Module Reference.

Fixpoint powers (step : float -> float) (x : float) (n : nat) : list float :=
  match n with
  | O => []
  | S n' => x :: powers step (step x) n'
  end.

(** [bits] pairs a power of two [p] with the base raised to [p], highest
    first. *)
Fixpoint take_bits (bits : list (float * float)) (e acc : float) : float :=
  match bits with
  | [] => acc
  | (p, f) :: rest =>
      if (p <=? e)%float then take_bits rest (e - p)%float (acc * f)%float
      else take_bits rest e acc
  end.

Definition pow_nonneg (b e : float) : float :=
  if (0x1p31 <=? e)%float then
    if (b <? 1)%float then 0%float else if (b =? 1)%float then 1%float else infinity
  else
    let ints := zip (powers (fun p => p * 2)%float 1%float 31) (powers (fun f => f * f)%float b 31) in
    let fracs := zip (powers (fun p => p / 2)%float 0.5%float 60) (powers sqrt (sqrt b) 60) in
    take_bits (rev ints ++ fracs) e 1%float.

Definition pow (b e : float) : float :=
  if is_zero e then 1%float
  else if is_nan b || is_nan e then nan
  else if (0 <? b)%float then
    if (e <? 0)%float then (1 / pow_nonneg b (- e))%float else pow_nonneg b e
  else nan.

End Reference.

(** ** Sample data *)

Module Sample.

(** 2025-11-02T00:00:00Z, and one day, in milliseconds. *)
Definition now : float := 1762041600000%float.
Definition day : float := 86400000%float.
Definition month : float := (1000 * 60 * 60 * 24 * 30)%float.

Definition ride (driver : string) (d : float) : Ride :=
  {| ride_id := None; groupId := "g1"; date := d; from := "Lille"; to := "Roubaix";
     participants := ["A"; "B"; "C"]; driverId := driver |}.

(** One ride of "A", 40 days old; and the second scenario of the
    specification. *)
Definition forty_days : list Ride := [ride "A" (now - 40 * day)].
Definition old_and_recent : list Ride :=
  [ride "A" (now - 400 * day); ride "B" (now - day)].

(** Three rides of "A" -- today's and two of 445 months ago (April 1989),
    whose weight [0.92^445] lies between [2^-54] and [2^-53] -- and
    today's ride of "B"; the same rides with today's ride of "A" last. *)
Definition today_first : list Ride :=
  [ride "A" now; ride "A" (now - 445 * month); ride "A" (now - 445 * month);
   ride "B" now].
Definition today_last : list Ride :=
  [ride "A" (now - 445 * month); ride "A" (now - 445 * month); ride "A" now;
   ride "B" now].


(** "A" drove twice seven months before [now], "B" has a ride dated twelve
    months after [now]. *)
Definition with_future_ride : list Ride :=
  [ride "A" (now - 7 * month); ride "A" (now - 7 * month); ride "B" (now + 12 * month)].

Definition group : Group :=
  {| group_id := "g1"; group_name := "Campus"; code := "K7Q2"; ownerId := "A";
     members := [mkMember "A" "Ada" None None; mkMember "B" "Bob" None None;
                 mkMember "C" "Cy" None None] |}.

End Sample.

(** ** Strings

    The [String.prototype] methods the pages call, on strings as
    sequences of characters. *)

Module Str.

(** The characters [" "] and ["/"]. *)
Definition space : Ascii.ascii := Ascii.Space.
Definition slash : Ascii.ascii := Ascii.Ascii true true true true false true false false.

(** The piece before the first separator, and the pieces after it. *)
Fixpoint split_from (sep : Ascii.ascii) (s : string) : string * list string :=
  match s with
  | EmptyString => (EmptyString, [])
  | String c s' =>
      let '(piece, rest) := split_from sep s' in
      if Ascii.eqb c sep then (EmptyString, piece :: rest) else (String c piece, rest)
  end.

(** [s.split(sep)] for a one-character separator: the pieces between the
    separators, empty ones included; never an empty array. *)
Definition split (sep : Ascii.ascii) (s : string) : list string :=
  let '(piece, rest) := split_from sep s in piece :: rest.

(** [s[0]]: a one-character string, or [undefined] for the empty string. *)
Definition char0 (s : string) : option string :=
  match s with
  | String c _ => Some (String c EmptyString)
  | EmptyString => None
  end.

(** [arr.join("")]: [undefined] elements read as the empty string. *)
Definition join_empty (arr : list (option string)) : string :=
  foldr (fun o acc => default EmptyString o +:+ acc) EmptyString arr.

Fixpoint take (n : nat) (s : string) : string :=
  match n, s with
  | S n', String c s' => String c (take n' s')
  | _, _ => EmptyString
  end.

Fixpoint drop (n : nat) (s : string) : string :=
  match n, s with
  | S n', String _ s' => drop n' s'
  | _, _ => s
  end.

(** [s.slice(b, e)] for integers [0 <= b <= e]: both ends are clamped to
    the length. *)
Definition slice (b e : nat) (s : string) : string := take (e - b) (drop b s).

(** [v || fallback] on a string that may be [undefined]: [undefined] and
    the empty string are falsy. *)
Definition or_string (v : option string) (fallback : string) : string :=
  match v with
  | Some EmptyString | None => fallback
  | Some s => s
  end.

(** [!s]: only the empty string is falsy. *)
Definition is_empty (s : string) : bool :=
  match s with
  | EmptyString => true
  | String _ _ => false
  end.

(** Whether the character occurs in the string. *)
Fixpoint has (c : Ascii.ascii) (s : string) : bool :=
  match s with
  | EmptyString => false
  | String c' s' => Ascii.eqb c' c || has c s'
  end.

End Str.

(** ** UI helpers and pages (src/App.tsx) *)

Section Initials.

(** [String.prototype.toUpperCase] of the runtime. *)
Variable toUpperCase : string -> string.

(** [initials] of [AvatarBubble]:
    [name.split(" ").map((s) => s[0]).join("").slice(0, 2).toUpperCase()]. *)
Definition initials (name : string) : string :=
  toUpperCase (Str.slice 0 2 (Str.join_empty (map Str.char0 (Str.split Str.space name)))).

End Initials.

(** The characters of a name that open a word: those that are not a
    space and stand first or right after a space. [fresh] tells whether
    the scan is at the start of a piece. *)
Fixpoint word_starts (fresh : bool) (s : string) : string :=
  match s with
  | EmptyString => EmptyString
  | String c s' =>
      if Ascii.eqb c Str.space then word_starts true s'
      else if fresh then String c (word_starts false s')
      else word_starts false s'
  end.

(** [Dashboard]: [user.displayName?.split(" ")[0] || ""]. *)
Definition firstName (displayName : option string) : string :=
  match displayName with
  | Some d => Str.or_string (head (Str.split Str.space d)) EmptyString
  | None => EmptyString
  end.

(** [Dashboard]: the target of a card's link, [`/group/${g.id}`]. *)
Definition group_link (g : Group) : string := "/group/" +:+ group_id g.

(** [GroupRoute]: [window.location.pathname.split("/").pop() || ""]. *)
Definition GroupRoute_id (pathname : string) : string :=
  Str.or_string (last (Str.split Str.slash pathname)) EmptyString.

(** [GroupPage] and [AddRideDialog]: the members a button is drawn for,
    [group.members?.length ? group.members : [{ id: "owner", name: "Toi" }]]. *)
Definition placeholder : Member := mkMember "owner" "Toi" None None.

Definition shownMembers (group : Group) : list Member :=
  if (length (members group) =? 0)%nat then [placeholder] else members group.

(** [GroupPage]: the update a click on the button of member [id] makes to
    [present],
    [prev.includes(m.id) ? prev.filter((x) => x !== m.id) : [...prev, m.id]]. *)
Definition togglePresent (prev : list string) (id : string) : list string :=
  if bool_decide (id ∈ prev) then filter (fun x => x ≠ id) prev else prev ++ [id].

(** [present] after a run of clicks, from the initial [useState([])]. *)
Definition presentAfter (clicks : list string) : list string :=
  foldl togglePresent [] clicks.

(** The text shown for a driver:
    [group.members?.find((m) => m.id === driver)?.name || "—"]. *)
Definition dash : string := "—".

Definition driverName (group : Group) (driver : option string) : string :=
  Str.or_string
    (member_name <$> List.find (fun m => bool_decide (Some (member_id m) = driver)) (members group))
    dash.

Section Pages.

Variable pow : float -> float -> float.

(** [suggestedDriver] of [GroupPage]:
    [nextDriver({ present: present.length ? present
                           : (group?.members?.map((m) => m.id) || []),
                  history: rides })];
    [group] is [null] until the first snapshot arrives. *)
Definition suggestedDriver (clock : float) (group : option Group) (present : list string)
    (rides : list Ride) : option string :=
  nextDriver pow clock
    (if (length present =? 0)%nat
     then match group with
          | Some g => map member_id (members g)
          | None => []
          end
     else present)
    rides None.

End Pages.

Section AddRide.

Variable pow : float -> float -> float.

(** The time value of [new Date(s)] in the runtime: NaN when [s] does not
    parse. *)
Variable parseDate : string -> float.

(** The "Enregistrer" button of [AddRideDialog]:
    [disabled={!from || !to || !date || present.length === 0}]. *)
Definition saveDisabled (from to date : string) (present : list string) : bool :=
  Str.is_empty from || Str.is_empty to || Str.is_empty date || (length present =? 0)%nat.

(** The ride its handler hands to [addDoc], if any (the [createdAt]
    stamp added to it is no field of [Ride]). The date stored is
    [new Date(date).toISOString()], which throws a [RangeError] into the
    handler's [catch] when the time value is not finite, and otherwise
    has the time value of [new Date(date)]. A disabled button does not
    call the handler; so somebody is present, and there is a driver. *)
Definition savedRide (clock : float) (group : Group) (rides : list Ride)
    (present : list string) (from to date : string) : option Ride :=
  if saveDisabled from to date present then None
  else
    match addRide_driverId pow clock group rides present with
    | Some driver =>
        if is_finite (parseDate date) then
          Some (mkRide None (group_id group) (parseDate date) from to present driver)
        else None
    | None => None
    end.

End AddRide.

(** More sample data: a group nobody has joined yet, and a ride whose
    date did not parse. *)
Module PageSample.

Definition solo : Group :=
  {| group_id := "g2"; group_name := "Solo"; code := "X4T9PA"; ownerId := "u1"; members := [] |}.

Definition undated (driver : string) : Ride := Sample.ride driver nan.

End PageSample.

(** ** Rounding to nearest, ties to even, on integers

    In units of the smallest subnormal the sum of two binary64 numbers
    that are not negative is an integer [v]; the binary64 sum is [v]
    rounded to the grid of its binade, and [+Infinity] (at [cap]) when
    that is out of range. *)

Module Rounding.
Local Open Scope Z_scope.

Definition cap : Z := 2 ^ (emax - emin).

(** The exponent of the grid step around [v]. *)
Definition grid (v : Z) : Z := Z.max (Z.log2 v + 1 - prec) 0.

Definition round_up (n v : Z) : bool :=
  (2 ^ n <? 2 * (v mod 2 ^ n)) || ((2 ^ n =? 2 * (v mod 2 ^ n)) && Z.odd (v / 2 ^ n)).

Definition round_to (n v : Z) : Z := (v / 2 ^ n + Z.b2z (round_up n v)) * 2 ^ n.

Definition rne (v : Z) : Z := Z.min (round_to (grid v) v) cap.

End Rounding.

(** ** Rounding a quotient to nearest, ties to even

    [a / b] for integers [0 <= a], [0 < b], in units of the smallest
    subnormal: the integer quotient tells the binade, the remainder the
    direction. *)

Module Quotient.
Local Open Scope Z_scope.

Definition round_up (d a : Z) : bool :=
  (d <? 2 * (a mod d)) || ((d =? 2 * (a mod d)) && Z.odd (a / d)).

(** The integer nearest to [a / d], the even one of two. *)
Definition nearest (d a : Z) : Z := a / d + Z.b2z (round_up d a).

Definition rne (a b : Z) : Z :=
  let n := Rounding.grid (a / b) in
  Z.min (nearest (b * 2 ^ n) a * 2 ^ n) Rounding.cap.


End Quotient.

(** * Facts *)

(** ** Binary64 arithmetic, from its specification *)

Module IEEE_facts.
Import IEEE.
Local Open Scope Z_scope.

Lemma digits2_size m : digits2_pos m = Pos.size m.
Proof. induction m; simpl; congruence. Qed.

Lemma digits_upper m : Z.pos m < 2 ^ Z.pos (digits2_pos m).
Proof.
  rewrite digits2_size. pose proof (Pos.size_gt m) as H.
  apply Pos2Z.pos_lt_pos in H. rewrite Pos2Z.inj_pow in H. exact H.
Qed.

Lemma digits_lower m : 2 ^ (Z.pos (digits2_pos m) - 1) <= Z.pos m.
Proof.
  rewrite digits2_size. pose proof (Pos.size_le m) as H.
  apply Pos2Z.pos_le_pos in H. rewrite Pos2Z.inj_pow in H.
  replace (Z.pos (Pos.size m)) with (Z.succ (Z.pos (Pos.size m) - 1)) in H by lia.
  rewrite Z.pow_succ_r in H by lia.
  change (Z.pos m~0) with (2 * Z.pos m) in H. lia.
Qed.

Lemma bounded_range m e :
  bounded prec emax m e = true ->
  emin <= e <= emax - prec /\ Z.pos m < 2 ^ prec /\ (emin < e -> 2 ^ (prec - 1) <= Z.pos m).
Proof.
  unfold bounded, canonical_mantissa, fexp. intros H.
  apply andb_true_iff in H as [H1 H2].
  apply Z.eqb_eq in H1. apply Z.leb_le in H2.
  pose proof (digits_upper m) as Hu. pose proof (digits_lower m) as Hl.
  set (d := Z.pos (digits2_pos m)) in *.
  assert (Hd : d <= prec) by lia.
  split; [lia|]. split.
  - eapply Z.lt_le_trans; [exact Hu|]. apply Z.pow_le_mono_r; lia.
  - intros He. assert (d = prec) as <- by lia. exact Hl.
Qed.

Lemma emin_val : emin = -1074.
Proof. reflexivity. Qed.

Lemma pow2_pos k : 0 <= k -> 0 < 2 ^ k.
Proof. intros. apply Z.pow_pos_nonneg; lia. Qed.

(** The magnitude of a finite number, in units of the smallest subnormal. *)
Lemma mag_bounds m e :
  bounded prec emax m e = true ->
  0 < Z.pos m * 2 ^ (e - emin) < 2 ^ (emax - emin).
Proof.
  intros H. apply bounded_range in H as (He & Hm & _).
  pose proof (pow2_pos (e - emin) ltac:(lia)) as Hp.
  split; [lia|].
  assert (2 ^ (e - emin) <= 2 ^ (emax - prec - emin)) as Hq
    by (apply Z.pow_le_mono_r; lia).
  assert (2 ^ (emax - emin) = 2 ^ prec * 2 ^ (emax - prec - emin)) as ->.
  { rewrite <- Z.pow_add_r; [f_equal; lia|unfold prec; lia|rewrite emin_val; unfold emax, prec; lia]. }
  nia.
Qed.

Lemma mag_compare m1 e1 m2 e2 :
  bounded prec emax m1 e1 = true -> bounded prec emax m2 e2 = true ->
  match e1 ?= e2 with
  | Lt => Lt
  | Gt => Gt
  | Eq => Pos.compare_cont Eq m1 m2
  end = (Z.pos m1 * 2 ^ (e1 - emin) ?= Z.pos m2 * 2 ^ (e2 - emin)).
Proof.
  intros H1 H2.
  apply bounded_range in H1 as (He1 & Hm1 & Hn1).
  apply bounded_range in H2 as (He2 & Hm2 & Hn2).
  assert (Hstep : forall ma ea mb eb,
    emin <= ea -> ea < eb -> Z.pos ma < 2 ^ prec -> 2 ^ (prec - 1) <= Z.pos mb ->
    Z.pos ma * 2 ^ (ea - emin) < Z.pos mb * 2 ^ (eb - emin)).
  { intros ma ea mb eb Ha Hab Hma Hmb.
    pose proof (pow2_pos (ea - emin) ltac:(lia)) as Hp.
    assert (2 * 2 ^ (ea - emin) <= 2 ^ (eb - emin)) as Hq.
    { rewrite <- Z.pow_succ_r by lia. apply Z.pow_le_mono_r; lia. }
    assert (2 ^ prec = 2 * 2 ^ (prec - 1)) as Hr.
    { rewrite <- Z.pow_succ_r by (unfold prec; lia). f_equal; lia. }
    nia. }
  destruct (Z.compare_spec e1 e2) as [->|Hlt|Hgt].
  - change (Pos.compare_cont Eq m1 m2) with (Z.pos m1 ?= Z.pos m2).
    apply Zmult_compare_compat_r. apply Z.lt_gt, pow2_pos; lia.
  - symmetry. apply Z.compare_lt_iff. apply Hstep; auto; lia.
  - symmetry. apply Z.compare_gt_iff. apply Hstep; auto; lia.
Qed.

Lemma compare_opp a b : (- a ?= - b) = CompOpp (a ?= b).
Proof. rewrite Z.compare_opp. apply Z.compare_antisym. Qed.

(** On valid numbers other than NaN, IEEE comparison is the comparison of
    [ord_sf]. *)
Lemma SFcompare_ord x y :
  sf_valid x -> sf_valid y -> sf_is_nan x = false -> sf_is_nan y = false ->
  SFcompare x y = Some (ord_sf x ?= ord_sf y).
Proof.
  intros Hx Hy Nx Ny.
  assert (Hbig : 0 < 2 ^ (emax - emin)) by (apply pow2_pos; rewrite emin_val; unfold emax; lia).
  destruct x as [sx|sx| |sx mx ex], y as [sy|sy| |sy my ey]; try discriminate;
    unfold sf_valid in *; simpl in Hx, Hy;
    try (pose proof (mag_bounds _ _ Hx)); try (pose proof (mag_bounds _ _ Hy));
    unfold ord_sf, SFcompare; f_equal.
  all: try (destruct sx); try (destruct sy); simpl cond_Zopp; symmetry;
    try (apply Z.compare_eq_iff; lia); try (apply Z.compare_lt_iff; lia);
    try (apply Z.compare_gt_iff; lia).
  - rewrite compare_opp. f_equal.
    rewrite <- (mag_compare _ _ _ _ Hx Hy). destruct (ex ?= ey); reflexivity.
  - rewrite <- (mag_compare _ _ _ _ Hx Hy). reflexivity.
Qed.

(** *** Rounding never loses the sign *)

Lemma iter_pos_nat {A} (f : A -> A) p x :
  SpecFloat.iter_pos f p x = Nat.iter (Pos.to_nat p) f x.
Proof.
  revert x. induction p as [p IH|p IH|]; intros x.
  - cbn [SpecFloat.iter_pos]. rewrite !IH, <- Nat.iter_succ_r, <- Nat.iter_add.
    f_equal. lia.
  - cbn [SpecFloat.iter_pos]. rewrite !IH, <- Nat.iter_add. f_equal. lia.
  - reflexivity.
Qed.

Lemma shr_record_of_loc_m m l : shr_m (shr_record_of_loc m l) = m.
Proof. destruct l as [|[]]; reflexivity. Qed.



Lemma iter_shr_1_pos k : forall mrs m,
  shr_m mrs = Z.pos m -> Z.of_nat k < Z.pos (digits2_pos m) ->
  exists m', shr_m (Nat.iter k shr_1 mrs) = Z.pos m'.
Proof.
  induction k as [|k IH]; intros mrs m Hm Hk.
  - exists m. exact Hm.
  - rewrite Nat.iter_succ_r. destruct mrs as [z r s]. simpl in Hm. subst z.
    destruct m as [p|p|]; simpl in Hk.
    + apply (IH _ p); [reflexivity|lia].
    + apply (IH _ p); [reflexivity|lia].
    + lia.
Qed.


Lemma shr_fexp_pos m e l :
  emin <= e ->
  exists m', shr_m (fst (shr_fexp prec emax (Z.pos m) e l)) = Z.pos m'
             /\ emin <= snd (shr_fexp prec emax (Z.pos m) e l).
Proof.
  intros He. unfold shr_fexp, shr, fexp. simpl Zdigits2.
  destruct (Z.max (Z.pos (digits2_pos m) + e - prec) emin - e) as [|n|n] eqn:Hn; simpl.
  - exists m. rewrite shr_record_of_loc_m. auto.
  - rewrite iter_pos_nat.
    destruct (iter_shr_1_pos (Pos.to_nat n) (shr_record_of_loc (Z.pos m) l) m) as [m' Hm'].
    + apply shr_record_of_loc_m.
    + rewrite positive_nat_Z. assert (0 < prec) by reflexivity. lia.
    + exists m'. split; [exact Hm'|lia].
  - exists m. rewrite shr_record_of_loc_m. auto.
Qed.

Lemma round_nearest_even_pos m l : exists m', round_nearest_even (Z.pos m) l = Z.pos m'.
Proof.
  destruct l as [|[]]; simpl; eauto; destruct m; simpl; eauto.
Qed.



(** Gradual underflow: a positive mantissa at an exponent no smaller than
    [emin] never rounds to zero. *)
Lemma binary_round_aux_nonzero sx m e l :
  emin <= e -> sf_signed_nonzero sx (binary_round_aux prec emax sx (Z.pos m) e l).
Proof.
  intros He. unfold binary_round_aux.
  destruct (shr_fexp_pos m e l He) as (m1 & H1 & He1).
  destruct (shr_fexp prec emax (Z.pos m) e l) as [mrs' e'] eqn:E1. simpl in H1, He1.
  rewrite H1.
  destruct (round_nearest_even_pos m1 (loc_of_shr_record mrs')) as [m2 ->].
  destruct (shr_fexp_pos m2 e' loc_Exact He1) as (m3 & H3 & _).
  destruct (shr_fexp prec emax (Z.pos m2) e' loc_Exact) as [mrs'' e''] eqn:E2. simpl in H3.
  rewrite H3. destruct (e'' <=? emax - prec); reflexivity.
Qed.

Lemma shl_align_exp mx ex e : emin <= ex -> emin <= e -> emin <= snd (shl_align mx ex e).
Proof. intros. unfold shl_align. destruct (e - ex); simpl; lia. Qed.

Lemma binary_round_nonzero sx m e :
  emin <= e -> sf_signed_nonzero sx (binary_round prec emax sx m e).
Proof.
  intros He. unfold binary_round.
  pose proof (shl_align_exp m e (fexp prec emax (Z.pos (digits2_pos m) + e)) He) as H.
  destruct (shl_align m e _) as [mz ez]. simpl in H.
  apply binary_round_aux_nonzero, H. unfold fexp. lia.
Qed.

Lemma binary_normalize_sign z e :
  emin <= e ->
  match z with
  | Z0 => binary_normalize prec emax z e false = S754_zero false
  | Zpos _ => sf_signed_nonzero false (binary_normalize prec emax z e false)
  | Zneg _ => sf_signed_nonzero true (binary_normalize prec emax z e false)
  end.
Proof. intros He. destruct z; simpl; auto using binary_round_nonzero. Qed.

(** *** Primitive floats through their specification *)

Lemma SFcompare_refl x :
  sf_valid x -> SFcompare x x = if sf_is_nan x then None else Some Eq.
Proof.
  intros Hx. destruct (sf_is_nan x) eqn:N.
  - destruct x; try discriminate. reflexivity.
  - rewrite SFcompare_ord by assumption. now rewrite Z.compare_refl.
Qed.

Lemma is_nan_spec x : is_nan x = sf_is_nan (Prim2SF x).
Proof.
  unfold is_nan. rewrite FloatAxioms.eqb_spec. unfold SFeqb.
  rewrite SFcompare_refl by apply Prim2SF_valid.
  now destruct (sf_is_nan (Prim2SF x)).
Qed.

Lemma compare_ord x y :
  is_nan x = false -> is_nan y = false ->
  SFcompare (Prim2SF x) (Prim2SF y) = Some (ord x ?= ord y).
Proof.
  rewrite !is_nan_spec. intros. apply SFcompare_ord; try apply Prim2SF_valid; assumption.
Qed.

Lemma ltb_ord x y :
  is_nan x = false -> is_nan y = false -> (x <? y)%float = (ord x <? ord y).
Proof.
  intros Nx Ny. rewrite FloatAxioms.ltb_spec. unfold SFltb, Z.ltb.
  rewrite compare_ord by assumption. now destruct (ord x ?= ord y).
Qed.

Lemma eqb_ord x y :
  is_nan x = false -> is_nan y = false -> (x =? y)%float = (ord x =? ord y).
Proof.
  intros Nx Ny. rewrite FloatAxioms.eqb_spec. unfold SFeqb.
  rewrite compare_ord by assumption. now rewrite Z.eqb_compare.
Qed.

Lemma leb_ord x y :
  is_nan x = false -> is_nan y = false -> (x <=? y)%float = (ord x <=? ord y).
Proof.
  intros Nx Ny. rewrite FloatAxioms.leb_spec. unfold SFleb, Z.leb.
  rewrite compare_ord by assumption. now destruct (ord x ?= ord y).
Qed.

Lemma leb_not_nan x y : (x <=? y)%float = true -> is_nan x = false /\ is_nan y = false.
Proof.
  rewrite FloatAxioms.leb_spec, !is_nan_spec. unfold SFleb.
  destruct (Prim2SF x), (Prim2SF y); simpl; auto; discriminate.
Qed.

Lemma ltb_not_nan x y : (x <? y)%float = true -> is_nan x = false /\ is_nan y = false.
Proof.
  rewrite FloatAxioms.ltb_spec, !is_nan_spec. unfold SFltb.
  destruct (Prim2SF x), (Prim2SF y); simpl; auto; discriminate.
Qed.

(** *** Subtraction and addition *)

Lemma iter_xO m d : Z.pos (Pos.iter xO m d) = Z.pos m * 2 ^ Z.pos d.
Proof.
  induction d as [|d IH] using Pos.peano_ind.
  - simpl. lia.
  - rewrite Pos.iter_succ, Pos2Z.inj_succ, Z.pow_succ_r by lia.
    change (Z.pos (Pos.iter xO m d)~0) with (2 * Z.pos (Pos.iter xO m d)). lia.
Qed.

Lemma shl_align_val mx ex ez :
  emin <= ez <= ex ->
  Z.pos (fst (shl_align mx ex ez)) * 2 ^ (ez - emin) = Z.pos mx * 2 ^ (ex - emin).
Proof.
  intros H. unfold shl_align. destruct (ez - ex) as [|d|d] eqn:Hd; simpl.
  - f_equal. f_equal. lia.
  - lia.
  - rewrite iter_xO, <- Z.mul_assoc, <- Z.pow_add_r by lia. f_equal. f_equal. lia.
Qed.

(** Both mantissas brought to the smaller exponent. *)
Lemma aligned_ord sx mx ex sy my ey :
  bounded prec emax mx ex = true -> bounded prec emax my ey = true ->
  let ez := Z.min ex ey in
  emin <= ez /\
  cond_Zopp sx (Z.pos (fst (shl_align mx ex ez))) * 2 ^ (ez - emin)
    = ord_sf (S754_finite sx mx ex) /\
  cond_Zopp sy (Z.pos (fst (shl_align my ey ez))) * 2 ^ (ez - emin)
    = ord_sf (S754_finite sy my ey).
Proof.
  intros Hx Hy ez.
  apply bounded_range in Hx as (Hex & _). apply bounded_range in Hy as (Hey & _).
  assert (emin <= ez <= ex /\ ez <= ey) as (H1 & H2) by (unfold ez; lia).
  split; [lia|].
  pose proof (shl_align_val mx ex ez ltac:(lia)) as Vx.
  pose proof (shl_align_val my ey ez ltac:(lia)) as Vy.
  simpl ord_sf. split; [destruct sx|destruct sy]; simpl cond_Zopp; lia.
Qed.

Lemma signed_nonzero_ord s f :
  sf_valid f -> sf_signed_nonzero s f -> if s then ord_sf f < 0 else 0 < ord_sf f.
Proof.
  intros Hv Hs.
  assert (Hbig : 0 < 2 ^ (emax - emin)) by (apply pow2_pos; rewrite emin_val; unfold emax; lia).
  destruct f as [| s' | | s' m e]; simpl in Hs; try contradiction; subst s'.
  - destruct s; simpl; lia.
  - pose proof (mag_bounds _ _ Hv). destruct s; simpl; lia.
Qed.

Lemma signed_ord s f :
  sf_signed s f -> if s then ord_sf f <= 0 else 0 <= ord_sf f.
Proof.
  intros Hs.
  assert (Hpow : forall k, 0 <= 2 ^ k) by (intros; apply Z.pow_nonneg; lia).
  destruct f as [s' | s' | | s' m e]; simpl in Hs; try contradiction; subst s'.
  - destruct s; simpl; lia.
  - pose proof (Hpow (emax - emin)). destruct s; simpl; lia.
  - pose proof (Hpow (e - emin)). destruct s; simpl; nia.
Qed.

(** The difference of two finite numbers is not NaN and has the sign of
    the exact difference. *)
Lemma SFsub_finite_sign x y :
  sf_valid x -> sf_valid y -> sf_is_finite x = true -> sf_is_finite y = true ->
  sf_valid (SFsub prec emax x y) ->
  sf_is_nan (SFsub prec emax x y) = false /\
  Z.sgn (ord_sf (SFsub prec emax x y)) = Z.sgn (ord_sf x - ord_sf y).
Proof.
  intros Hx Hy Fx Fy Hr.
  destruct x as [sx|sx| |sx mx ex], y as [sy|sy| |sy my ey]; try discriminate.
  - destruct sx, sy; simpl; auto.
  - simpl SFsub. split; [reflexivity|].
    unfold ord_sf. destruct sy; simpl cond_Zopp; f_equal; lia.
  - simpl SFsub. split; [reflexivity|]. f_equal. simpl. lia.
  - unfold sf_valid in Hx, Hy. simpl in Hx, Hy.
    destruct (aligned_ord sx mx ex sy my ey Hx Hy) as (He & Vx & Vy).
    cbv zeta in Vx, Vy. rewrite <- Vx, <- Vy.
    cbn [SFsub] in *.
    set (z := cond_Zopp sx _ - cond_Zopp sy _) in *.
    pose proof (binary_normalize_sign z _ He) as Hz.
    pose proof (pow2_pos (Z.min ex ey - emin) ltac:(lia)) as Hp.
    rewrite <- Z.mul_sub_distr_r. fold z.
    destruct z as [|p|p].
    + rewrite Hz. simpl. auto.
    + pose proof (signed_nonzero_ord false _ Hr Hz) as Ho. cbv beta iota in Ho.
      split; [destruct (binary_normalize _ _ _ _ _); simpl in Hz; try contradiction; reflexivity|].
      rewrite !Z.sgn_pos; nia.
    + pose proof (signed_nonzero_ord true _ Hr Hz) as Ho. cbv beta iota in Ho.
      split; [destruct (binary_normalize _ _ _ _ _); simpl in Hz; try contradiction; reflexivity|].
      rewrite !Z.sgn_neg; nia.
Qed.

Lemma SFltb_ord x y :
  sf_valid x -> sf_valid y -> sf_is_nan x = false -> sf_is_nan y = false ->
  SFltb x y = (ord_sf x <? ord_sf y).
Proof.
  intros. unfold SFltb, Z.ltb. rewrite SFcompare_ord by assumption.
  now destruct (ord_sf x ?= ord_sf y).
Qed.

Lemma SFsub_pos_ltb x y :
  sf_valid x -> sf_valid y -> sf_unsigned x = true -> sf_unsigned y = true ->
  sf_valid (SFsub prec emax x y) ->
  SFltb (S754_zero false) (SFsub prec emax x y) = SFltb y x.
Proof.
  intros Hx Hy Ux Uy Hr.
  destruct x as [[]|[]| |[] mx ex], y as [[]|[]| |[] my ey]; try discriminate;
    try reflexivity.
  destruct (SFsub_finite_sign _ _ Hx Hy eq_refl eq_refl Hr) as [Hn Hs].
  rewrite !SFltb_ord by (assumption || reflexivity).
  change (ord_sf (S754_zero false)) with 0.
  destruct (Z.ltb_spec 0 (ord_sf (SFsub prec emax (S754_finite false mx ex) (S754_finite false my ey))));
    destruct (Z.ltb_spec (ord_sf (S754_finite false my ey)) (ord_sf (S754_finite false mx ex)));
    auto; lia.
Qed.

Lemma unsigned_not_nan x : unsigned x = true -> is_nan x = false.
Proof. rewrite is_nan_spec. unfold unsigned. now destruct (Prim2SF x) as [[]|[]| |[] ? ?]. Qed.

Lemma unsigned_ord x : unsigned x = true -> 0 <= ord x.
Proof.
  unfold unsigned, ord. intros H.
  apply (signed_ord false). now destruct (Prim2SF x) as [[]|[]| |[] ? ?].
Qed.

(** [ca - cb > 0] exactly when [cb < ca], for numbers with a clear sign
    bit: what makes a comparator that returns a difference consistent. *)
Lemma sub_pos_ltb x y :
  unsigned x = true -> unsigned y = true -> (0 <? x - y)%float = (y <? x)%float.
Proof.
  intros Ux Uy. rewrite !FloatAxioms.ltb_spec.
  pose proof (Prim2SF_valid (x - y)) as Hr. rewrite sub_spec in *.
  change (Prim2SF 0) with (S754_zero false).
  apply SFsub_pos_ltb; try apply Prim2SF_valid; assumption.
Qed.

Lemma SFadd_unsigned x y :
  sf_valid x -> sf_valid y -> sf_unsigned x = true ->
  SFleb (S754_zero false) y = true ->
  sf_unsigned (SFadd prec emax x y) = true.
Proof.
  intros Hx Hy Ux Ly.
  destruct x as [[]|[]| |[] mx ex], y as [[]|[]| |[] my ey]; try discriminate;
    try reflexivity.
  unfold sf_valid in Hx, Hy. simpl in Hx, Hy.
  destruct (aligned_ord false mx ex false my ey Hx Hy) as (He & _).
  cbn [SFadd cond_Zopp].
  pose proof (binary_normalize_sign
    (Z.pos (fst (shl_align mx ex (Z.min ex ey))) + Z.pos (fst (shl_align my ey (Z.min ex ey))))
    _ He) as Hz.
  simpl Z.add in *. cbv beta iota in Hz.
  now destruct (binary_normalize _ _ _ _ _) as [| [] | | [] ? ?].
Qed.

(** Adding a weight that is not negative to a count keeps the sign bit
    clear (the sum may overflow to infinity, never to NaN). *)
Lemma add_unsigned x w :
  unsigned x = true -> (0 <=? w)%float = true -> unsigned (x + w) = true.
Proof.
  intros Ux Lw. unfold unsigned. rewrite add_spec.
  rewrite FloatAxioms.leb_spec in Lw. change (Prim2SF 0) with (S754_zero false) in Lw.
  apply SFadd_unsigned; try apply Prim2SF_valid; assumption.
Qed.

(** *** Multiplication by one *)

Lemma Prim2SF_one : Prim2SF 1 = S754_finite false 4503599627370496 (-52).
Proof. reflexivity. Qed.

Lemma SFmul_one_l f :
  sf_valid f -> SFmul prec emax (S754_finite false 4503599627370496 (-52)) f = f.
Proof.
  intros Hf. destruct f as [s|s| |s m e]; try reflexivity.
  unfold sf_valid in Hf. simpl in Hf.
  pose proof Hf as Hb. unfold bounded, canonical_mantissa in Hb.
  apply andb_true_iff in Hb as [Hc He]. apply Z.eqb_eq in Hc.
  assert (Hshr : SpecFloat.iter_pos shr_1 52
            (Build_shr_record (Z.pos (4503599627370496 * m)) false false)
          = Build_shr_record (Z.pos m) false false) by reflexivity.
  assert (Hd : Z.pos (digits2_pos (4503599627370496 * m)) = Z.pos (digits2_pos m) + 52).
  { change (4503599627370496 * m)%positive with (Pos.iter xO m 52).
    simpl digits2_pos. lia. }
  cbn [SFmul xorb]. unfold binary_round_aux, shr_fexp.
  cbn [Zdigits2 shr_record_of_loc]. rewrite Hd.
  replace (Z.pos (digits2_pos m) + 52 + (-52 + e)) with (Z.pos (digits2_pos m) + e) by lia.
  rewrite Hc. replace (e - (-52 + e)) with 52 by lia.
  cbn [shr]. rewrite Hshr.
  cbn [shr_m loc_of_shr_record round_nearest_even Zdigits2 shr_record_of_loc].
  replace (-52 + e + 52) with e by lia.
  rewrite Hc, Z.sub_diag. cbn [shr shr_m]. now rewrite He.
Qed.

(** [1 * w] is [w], bit for bit, for every Number [w]. *)
Lemma mul_one_l w : (1 * w)%float = w.
Proof.
  apply Prim2SF_inj. rewrite mul_spec, Prim2SF_one.
  apply SFmul_one_l, Prim2SF_valid.
Qed.

(** *** Division by a positive finite number *)



(** *** Predicates of [PrimFloat] *)

Lemma is_zero_spec x :
  is_zero x = match Prim2SF x with S754_zero _ => true | _ => false end.
Proof.
  unfold is_zero. rewrite FloatAxioms.eqb_spec.
  change (Prim2SF zero) with (S754_zero false).
  now destruct (Prim2SF x) as [[]|[]| |[] ? ?].
Qed.

Lemma is_infinity_spec x :
  is_infinity x = match Prim2SF x with S754_infinity _ => true | _ => false end.
Proof.
  unfold is_infinity. rewrite FloatAxioms.eqb_spec, abs_spec.
  change (Prim2SF infinity) with (S754_infinity false).
  now destruct (Prim2SF x) as [[]|[]| |[] ? ?].
Qed.

Lemma is_finite_spec x : is_finite x = sf_is_finite (Prim2SF x).
Proof.
  unfold is_finite. rewrite is_nan_spec, is_infinity_spec.
  now destruct (Prim2SF x).
Qed.

Lemma unsigned_zero x : unsigned x = true -> is_zero x = true -> x = 0%float.
Proof.
  unfold unsigned. rewrite is_zero_spec. intros U Z.
  apply Prim2SF_inj. change (Prim2SF 0) with (S754_zero false).
  now destruct (Prim2SF x) as [[]|[]| |[] ? ?].
Qed.

Lemma unsigned_not_neg_zero x : unsigned x = true -> JS.is_neg_zero x = false.
Proof.
  intros U. unfold JS.is_neg_zero. destruct (is_zero x) eqn:Z; [|reflexivity].
  rewrite (unsigned_zero x U Z). reflexivity.
Qed.

(** [c || 0] is [c] for a count or a last-drive instant. *)
Lemma or_zero_unsigned c : unsigned c = true -> JS.or_zero (Some c) = c.
Proof.
  intros U. unfold JS.or_zero, JS.truthy.
  rewrite (unsigned_not_nan c U), orb_false_r.
  destruct (is_zero c) eqn:Z; [|reflexivity].
  symmetry. now apply unsigned_zero.
Qed.

Lemma ord_pos_unsigned x : is_nan x = false -> 0 < ord x -> unsigned x = true.
Proof.
  rewrite is_nan_spec. unfold ord, unsigned. intros N O.
  pose proof (Prim2SF_valid x) as V.
  assert (Hbig : 0 < 2 ^ (emax - emin)) by (apply pow2_pos; rewrite emin_val; unfold emax; lia).
  destruct (Prim2SF x) as [[]|[]| |[] m e]; try discriminate; simpl in O; try lia;
    reflexivity.
Qed.

(** *** [Math.max] *)

Lemma Math_max_unsigned l d :
  unsigned l = true -> is_nan d = false -> unsigned (JS.Math_max l d) = true.
Proof.
  intros U N. unfold JS.Math_max.
  rewrite (unsigned_not_nan l U), N, (unsigned_not_neg_zero l U), andb_false_r.
  simpl. destruct (l <? d)%float eqn:L; [|exact U].
  rewrite ltb_ord in L by auto using unsigned_not_nan.
  apply Z.ltb_lt in L. pose proof (unsigned_ord l U).
  apply ord_pos_unsigned; [exact N|lia].
Qed.

Lemma Math_max_ord l d :
  unsigned l = true -> is_nan d = false ->
  ord (JS.Math_max l d) = Z.max (ord l) (ord d).
Proof.
  intros U N. unfold JS.Math_max.
  rewrite (unsigned_not_nan l U), N, (unsigned_not_neg_zero l U), andb_false_r.
  simpl. rewrite ltb_ord by auto using unsigned_not_nan.
  destruct (Z.ltb_spec (ord l) (ord d)); lia.
Qed.


(** *** Elapsed months *)




Lemma eqb_not_nan x y : (x =? y)%float = true -> is_nan x = false /\ is_nan y = false.
Proof.
  rewrite FloatAxioms.eqb_spec, !is_nan_spec. unfold SFeqb.
  destruct (Prim2SF x), (Prim2SF y); simpl; auto; discriminate.
Qed.


(** *** Rounding a sum: what the shifted-out bits decide *)

Lemma shr_1_spec mrs :
  0 <= shr_m mrs ->
  shr_1 mrs = {| shr_m := shr_m mrs / 2; shr_r := Z.odd (shr_m mrs);
                 shr_s := shr_r mrs || shr_s mrs |}.
Proof.
  destruct mrs as [[|[p|p|]|p] r s]; simpl; intros H; try lia; f_equal.
  - rewrite Pos2Z.inj_xI. apply Z.div_unique with 1; lia.
  - rewrite Pos2Z.inj_xO. apply Z.div_unique with 0; lia.
Qed.

Lemma iter_shr_1_spec n mrs :
  0 <= shr_m mrs ->
  Nat.iter (S n) shr_1 mrs =
  {| shr_m := shr_m mrs / 2 ^ Z.of_nat (S n);
     shr_r := Z.testbit (shr_m mrs) (Z.of_nat n);
     shr_s := shr_r mrs || shr_s mrs || negb (shr_m mrs mod 2 ^ Z.of_nat n =? 0) |}.
Proof.
  intros H. induction n as [|n IH].
  - cbn [Nat.iter]. rewrite shr_1_spec by done. f_equal.
    change (2 ^ Z.of_nat 0) with 1. rewrite Z.mod_1_r. simpl. by rewrite orb_false_r.
  - change (Nat.iter (S (S n)) shr_1 mrs) with (shr_1 (Nat.iter (S n) shr_1 mrs)).
    rewrite IH.
    assert (0 < 2 ^ Z.of_nat n) by (apply Z.pow_pos_nonneg; lia).
    assert (0 < 2 ^ Z.of_nat (S n)) by (apply Z.pow_pos_nonneg; lia).
    rewrite shr_1_spec by (cbn [shr_m]; apply Z.div_pos; lia).
    cbn [shr_m shr_r shr_s]. f_equal.
    + rewrite Z.div_div by lia. f_equal.
      rewrite (Nat2Z.inj_succ (S n)), Z.pow_succ_r by lia. lia.
    + rewrite Z.testbit_odd, Z.shiftr_div_pow2 by lia. done.
    + assert (shr_m mrs mod 2 ^ Z.of_nat (S n)
              = shr_m mrs mod 2 ^ Z.of_nat n
                + 2 ^ Z.of_nat n * Z.b2z (Z.testbit (shr_m mrs) (Z.of_nat n))) as ->.
      { rewrite Z.testbit_spec' by lia. rewrite <- Z.rem_mul_r by lia.
        f_equal. rewrite (Nat2Z.inj_succ n), Z.pow_succ_r by lia. lia. }
      pose proof (Z.mod_pos_bound (shr_m mrs) (2 ^ Z.of_nat n) ltac:(lia)).
      destruct (Z.testbit (shr_m mrs) (Z.of_nat n)); cbn [Z.b2z orb].
      * symmetry. rewrite orb_true_iff. right. apply negb_true_iff, Z.eqb_neq. lia.
      * by rewrite Z.mul_0_r, Z.add_0_r.
Qed.

Lemma digits_unique M d :
  2 ^ (d - 1) <= Z.pos M < 2 ^ d -> Z.pos (digits2_pos M) = d.
Proof.
  intros [Hl Hu]. pose proof (digits_upper M) as Hu'. pose proof (digits_lower M) as Hl'.
  assert (0 < d).
  { destruct (Z.lt_ge_cases 0 d); [done|].
    rewrite Z.pow_neg_r in Hl by lia. 
    destruct (Z.eq_dec d 0) as [->|]; [simpl in Hu; lia|rewrite Z.pow_neg_r in Hu by lia; lia]. }
  destruct (Z.lt_trichotomy (Z.pos (digits2_pos M)) d) as [Hlt|[?|Hgt]]; [|done|].
  - assert (2 ^ Z.pos (digits2_pos M) <= 2 ^ (d - 1)) by (apply Z.pow_le_mono_r; lia). lia.
  - assert (2 ^ d <= 2 ^ (Z.pos (digits2_pos M) - 1)) by (apply Z.pow_le_mono_r; lia). lia.
Qed.

(** Rounding a mantissa of [prec + n] bits: the [n] low bits go, the last
    of them and the rest decide the direction. *)
Lemma binary_round_shift s M e (n : positive) q :
  Z.pos (digits2_pos M) = prec + Z.pos n ->
  emin <= e + Z.pos n <= emax - prec ->
  round_nearest_even (Z.pos M / 2 ^ Z.pos n)
    (loc_of_shr_record
       {| shr_m := Z.pos M / 2 ^ Z.pos n;
          shr_r := Z.testbit (Z.pos M) (Z.pos n - 1);
          shr_s := negb (Z.pos M mod 2 ^ (Z.pos n - 1) =? 0) |}) = Z.pos q ->
  Z.pos (digits2_pos q) = prec ->
  binary_round prec emax s M e = S754_finite s q (e + Z.pos n).
Proof.
  intros Hd He Hq Hdq.
  assert (fexp prec emax (Z.pos (digits2_pos M) + e) = e + Z.pos n) as Hf
    by (unfold fexp; lia).
  unfold binary_round. rewrite Hf.
  assert (shl_align M e (e + Z.pos n) = (M, e)) as ->.
  { unfold shl_align. replace (e + Z.pos n - e) with (Z.pos n) by lia. done. }
  unfold binary_round_aux, shr_fexp. cbn [Zdigits2 shr_record_of_loc].
  rewrite Hf. replace (e + Z.pos n - e) with (Z.pos n) by lia. cbn [shr].
  rewrite iter_pos_nat.
  destruct (Pos.to_nat n) as [|k] eqn:Hk; [lia|].
  rewrite iter_shr_1_spec by (cbn [shr_m]; lia). cbn [shr_m shr_r shr_s orb].
  replace (Z.of_nat (S k)) with (Z.pos n) by lia.
  replace (Z.of_nat k) with (Z.pos n - 1) by lia.
  rewrite Hq. cbn [Zdigits2]. rewrite Hdq.
  assert (fexp prec emax (prec + (e + Z.pos n)) = e + Z.pos n) as ->
    by (unfold fexp; lia).
  rewrite Z.sub_diag. cbn [shr shr_m].
  destruct (Z.leb_spec (e + Z.pos n) (emax - prec)); [done|lia].
Qed.

(** *** Three sums with a weight strictly between [2^-54] and [2^-53] *)

Lemma tiny_weight_shape w :
  (0x1p-54 <? w)%float = true -> (w <? 0x1p-53)%float = true ->
  exists m, Prim2SF w = S754_finite false m (-106) /\ 2 ^ 52 < Z.pos m < 2 ^ 53.
Proof.
  intros Hl Hu.
  destruct (ltb_not_nan _ _ Hl) as [_ Nw].
  rewrite ltb_ord in Hl, Hu by done. apply Z.ltb_lt in Hl, Hu.
  change (ord 0x1p-54) with (2 ^ 52 * 2 ^ 968) in Hl.
  change (ord 0x1p-53) with (2 ^ 52 * 2 ^ 969) in Hu.
  unfold ord in Hl, Hu. pose proof (Prim2SF_valid w) as V.
  assert (0 < 2 ^ 968) as HP by (by apply Z.pow_pos_nonneg).
  assert (2 ^ 969 = 2 * 2 ^ 968) as E969 by (by rewrite <- Z.pow_succ_r).
  assert (2 ^ 53 = 2 * 2 ^ 52) as E53 by (by rewrite <- Z.pow_succ_r).
  assert (0 < 2 ^ 52) as H52 by (by apply Z.pow_pos_nonneg).
  destruct (Prim2SF w) as [s|s| |s m e]; cbn [ord_sf] in Hl, Hu; try lia.
  - destruct s; cbn [cond_Zopp] in *; [lia|].
    assert (2 ^ 52 * 2 ^ 969 <= 2 ^ (emax - emin)); [|lia].
    change (emax - emin) with (52 + 969 + 1077). rewrite !Z.pow_add_r by lia.
    assert (0 < 2 ^ 1077) by (apply Z.pow_pos_nonneg; lia). nia.
  - destruct (bounded_range _ _ V) as (He & Hm & Hn).
    pose proof (pow2_pos (e - emin) ltac:(lia)).
    destruct s; cbn [cond_Zopp] in *; [lia|].
    change (2 ^ prec) with (2 ^ 53) in Hm. change (2 ^ (prec - 1)) with (2 ^ 52) in Hn.
    assert (e = -106) as ->.
    { destruct (Z.lt_trichotomy e (-106)) as [Hlt|[?|Hgt]]; [exfalso|done|exfalso].
      - assert (2 * 2 ^ (e - emin) <= 2 ^ 968).
        { rewrite <- Z.pow_succ_r by lia. apply Z.pow_le_mono_r; [lia|].
          rewrite emin_val. lia. }
        nia.
      - assert (2 ^ 969 <= 2 ^ (e - emin)).
        { apply Z.pow_le_mono_r; [lia|]. rewrite emin_val. lia. }
        assert (2 ^ 52 <= Z.pos m) by (apply Hn; rewrite emin_val; lia). nia. }
    exists m. split; [done|].
    change (2 ^ (-106 - emin)) with (2 ^ 968) in *. nia.
Qed.

Lemma one_plus_tiny w :
  (0x1p-54 <? w)%float = true -> (w <? 0x1p-53)%float = true -> (1 + w)%float = 1%float.
Proof.
  intros Hl Hu. destruct (tiny_weight_shape w Hl Hu) as (m & Hw & Hm).
  apply Prim2SF_inj. rewrite add_spec, Hw, Prim2SF_one.
  change (2 ^ 52) with 4503599627370496 in Hm. change (2 ^ 53) with 9007199254740992 in Hm.
  assert (SF64add (S754_finite false 4503599627370496 (-52)) (S754_finite false m (-106))
          = binary_round prec emax false (81129638414606681695789005144064 + m) (-106)) as ->
    by reflexivity.
  change (S754_finite false 4503599627370496 (-52))
    with (S754_finite false 4503599627370496 (-106 + 54)).
  apply binary_round_shift.
  - apply digits_unique. rewrite Pos2Z.inj_add.
    change (2 ^ (prec + 54 - 1)) with 81129638414606681695789005144064.
    change (2 ^ (prec + 54)) with (2 * 81129638414606681695789005144064). lia.
  - rewrite emin_val. unfold emax, prec. lia.
  - rewrite Pos2Z.inj_add.
    assert ((81129638414606681695789005144064 + Z.pos m) / 2 ^ 54 = 4503599627370496) as ->.
    { symmetry. apply Z.div_unique with (Z.pos m); [|reflexivity || lia].
      change (2 ^ 54) with 18014398509481984. lia. }
    assert (Z.testbit (81129638414606681695789005144064 + Z.pos m) (54 - 1) = false) as ->.
    { apply Z.testbit_false; [lia|].
      assert ((81129638414606681695789005144064 + Z.pos m) / 2 ^ (54 - 1) = 9007199254740992) as ->; [|done].
      symmetry. apply Z.div_unique with (Z.pos m); [|reflexivity || lia].
      change (2 ^ (54 - 1)) with 9007199254740992. lia. }
    assert ((81129638414606681695789005144064 + Z.pos m) mod 2 ^ (54 - 1) = Z.pos m) as ->.
    { symmetry. apply Z.mod_unique with 9007199254740992; [|reflexivity || lia].
      change (2 ^ (54 - 1)) with 9007199254740992. lia. }
    reflexivity.
  - reflexivity.
Qed.

Lemma zero_plus_positive w m e :
  Prim2SF w = S754_finite false m e -> (0 + w)%float = w.
Proof.
  intros Hw. apply Prim2SF_inj. rewrite add_spec, Hw. reflexivity.
Qed.

Lemma tiny_doubled w :
  (0x1p-54 <? w)%float = true -> (w <? 0x1p-53)%float = true ->
  exists m, Prim2SF (w + w) = S754_finite false m (-105) /\ 2 ^ 52 < Z.pos m < 2 ^ 53.
Proof.
  intros Hl Hu. destruct (tiny_weight_shape w Hl Hu) as (m & Hw & Hm).
  exists m. split; [|done]. rewrite add_spec, Hw.
  change (2 ^ 52) with 4503599627370496 in Hm. change (2 ^ 53) with 9007199254740992 in Hm.
  assert (SF64add (S754_finite false m (-106)) (S754_finite false m (-106))
          = binary_round prec emax false (m + m) (-106)) as -> by reflexivity.
  change (-105) with (-106 + 1).
  apply binary_round_shift.
  - apply digits_unique. rewrite Pos2Z.inj_add.
    change (2 ^ (prec + 1 - 1)) with 9007199254740992.
    change (2 ^ (prec + 1)) with (2 * 9007199254740992). lia.
  - rewrite emin_val. unfold emax, prec. lia.
  - rewrite Pos2Z.inj_add. change (2 ^ 1) with 2. change (2 ^ (1 - 1)) with 1.
    assert ((Z.pos m + Z.pos m) / 2 = Z.pos m) as ->
      by (symmetry; apply Z.div_unique with 0; lia).
    assert (Z.testbit (Z.pos m + Z.pos m) (1 - 1) = false) as ->.
    { change (1 - 1) with 0. rewrite Z.bit0_odd.
      replace (Z.pos m + Z.pos m) with (2 * Z.pos m) by lia. apply Z.odd_2. }
    rewrite Z.mod_1_r. reflexivity.
  - apply digits_unique. change (2 ^ (prec - 1)) with 4503599627370496.
    change (2 ^ prec) with 9007199254740992. lia.
Qed.

Lemma doubled_tiny_plus_one w :
  (0x1p-54 <? w)%float = true -> (w <? 0x1p-53)%float = true ->
  (w + w + 1)%float = 0x1.0000000000001p+0%float.
Proof.
  intros Hl Hu. destruct (tiny_doubled w Hl Hu) as (m & Hw & Hm).
  apply Prim2SF_inj. rewrite add_spec, Hw, Prim2SF_one.
  change (2 ^ 52) with 4503599627370496 in Hm. change (2 ^ 53) with 9007199254740992 in Hm.
  assert (SF64add (S754_finite false m (-105)) (S754_finite false 4503599627370496 (-52))
          = binary_round prec emax false (m + 40564819207303340847894502572032) (-105)) as ->
    by reflexivity.
  change (Prim2SF 0x1.0000000000001p+0) with (S754_finite false 4503599627370497 (-105 + 53)).
  apply binary_round_shift.
  - apply digits_unique. rewrite Pos2Z.inj_add.
    change (2 ^ (prec + 53 - 1)) with 40564819207303340847894502572032.
    change (2 ^ (prec + 53)) with (2 * 40564819207303340847894502572032). lia.
  - rewrite emin_val. unfold emax, prec. lia.
  - rewrite Pos2Z.inj_add.
    assert ((Z.pos m + 40564819207303340847894502572032) / 2 ^ 53 = 4503599627370496) as ->.
    { symmetry. apply Z.div_unique with (Z.pos m); [|reflexivity || lia].
      change (2 ^ 53) with 9007199254740992. lia. }
    assert (Z.testbit (Z.pos m + 40564819207303340847894502572032) (53 - 1) = true) as ->.
    { apply Z.testbit_true; [lia|].
      assert ((Z.pos m + 40564819207303340847894502572032) / 2 ^ (53 - 1) = 9007199254740993) as ->; [|done].
      symmetry. apply Z.div_unique with (Z.pos m - 4503599627370496); [|reflexivity || lia].
      change (2 ^ (53 - 1)) with 4503599627370496. lia. }
    assert ((Z.pos m + 40564819207303340847894502572032) mod 2 ^ (53 - 1)
            = Z.pos m - 4503599627370496) as ->.
    { symmetry. apply Z.mod_unique with 9007199254740993; [|reflexivity || lia].
      change (2 ^ (53 - 1)) with 4503599627370496. lia. }
    destruct (Z.eqb_spec (Z.pos m - 4503599627370496) 0); [lia|reflexivity].
  - reflexivity.
Qed.

Lemma finite_unsigned x m e : Prim2SF x = S754_finite false m e -> unsigned x = true.
Proof. intros H. unfold unsigned. by rewrite H. Qed.

End IEEE_facts.

Import IEEE IEEE_facts.

(** ** Stable insertion sort *)

Section SortAny.
Context {A : Type} (cmp : A -> A -> float).

Lemma insert_perm x l : insert cmp x l ≡ₚ x :: l.
Proof.
  induction l as [|y l IH]; simpl; [done|].
  destruct (0 <? cmp x y)%float; [|done].
  rewrite IH. apply Permutation_swap.
Qed.

Lemma sort_perm l : sort cmp l ≡ₚ l.
Proof.
  induction l as [|x l IH]; simpl; [done|].
  by rewrite insert_perm, IH.
Qed.

Lemma head_insert x l :
  head (insert cmp x l) =
  Some match head l with
       | Some y => if (0 <? cmp x y)%float then y else x
       | None => x
       end.
Proof. destruct l as [|y l]; simpl; [done|]. by destruct (0 <? cmp x y)%float. Qed.

(** Where the comparator never answers "after", nothing moves. *)
Lemma sort_id l :
  (forall a b, (0 <? cmp a b)%float = false) -> sort cmp l = l.
Proof.
  intros H. induction l as [|x l IH]; simpl; [done|].
  rewrite IH. destruct l as [|y l]; simpl; [done|]. by rewrite H.
Qed.

End SortAny.

(** With a comparator that answers "after" exactly when the second
    argument has the strictly smaller key, for keys ordered
    lexicographically. *)
Section SortKeyed.
Context {A : Type} (cmp : A -> A -> float) (key : A -> Z * Z).
Hypothesis cmp_key : forall a b, (0 <? cmp a b)%float = lex_ltb (key b) (key a).

Lemma lex_trichotomy p q : lex_ltb p q = true \/ p = q \/ lex_ltb q p = true.
Proof.
  destruct p as [a b], q as [c d]. unfold lex_ltb. simpl.
  destruct (Z.ltb_spec a c), (Z.eqb_spec a c), (Z.ltb_spec b d), (Z.ltb_spec c a),
    (Z.eqb_spec c a), (Z.ltb_spec d b); simpl; auto; try lia.
  right. left. f_equal; lia.
Qed.

Lemma lex_irrefl p : lex_ltb p p = false.
Proof.
  destruct p as [a b]. unfold lex_ltb. simpl.
  rewrite !Z.ltb_irrefl. by rewrite andb_false_r.
Qed.

Lemma lex_trans p q r : lex_ltb p q = true -> lex_ltb q r = true -> lex_ltb p r = true.
Proof.
  destruct p as [a b], q as [c d], r as [e f]. unfold lex_ltb. simpl.
  destruct (Z.ltb_spec a c), (Z.eqb_spec a c), (Z.ltb_spec b d), (Z.ltb_spec c e),
    (Z.eqb_spec c e), (Z.ltb_spec d f), (Z.ltb_spec a e), (Z.eqb_spec a e),
    (Z.ltb_spec b f); simpl; auto; try lia.
Qed.

Lemma lex_le_trans p q r :
  lex_ltb q p = false -> lex_ltb r q = false -> lex_ltb r p = false.
Proof.
  destruct p as [a b], q as [c d], r as [e f]. unfold lex_ltb. simpl.
  destruct (Z.ltb_spec c a), (Z.eqb_spec c a), (Z.ltb_spec d b), (Z.ltb_spec e c),
    (Z.eqb_spec e c), (Z.ltb_spec f d), (Z.ltb_spec e a), (Z.eqb_spec e a),
    (Z.ltb_spec f b); simpl; auto; try lia.
Qed.

Lemma lex_asym p q : lex_ltb p q = true -> lex_ltb q p = false.
Proof.
  intros H. destruct (lex_ltb q p) eqn:E; [|done].
  pose proof (lex_trans _ _ _ H E) as T. by rewrite lex_irrefl in T.
Qed.

Local Abbreviation key_le := (key_le key).

Lemma insert_sorted x l :
  StronglySorted key_le l -> StronglySorted key_le (insert cmp x l).
Proof.
  induction 1 as [|y l Hs IH Hy]; simpl.
  - repeat constructor.
  - rewrite cmp_key. destruct (lex_ltb (key y) (key x)) eqn:E.
    + constructor; [done|].
      rewrite insert_perm.
      constructor; [|done]. unfold key_le. by apply lex_asym.
    + constructor; [by constructor|].
      constructor; [exact E|].
      eapply Forall_impl; [exact Hy|]. intros z Hz. unfold key_le in *.
      eapply lex_le_trans; eauto.
Qed.

Lemma sort_sorted l : StronglySorted key_le (sort cmp l).
Proof. induction l; simpl; [constructor|by apply insert_sorted]. Qed.

(** Stability: members of equal key keep their relative order. *)
Lemma insert_stable k x l :
  List.filter (fun a => bool_decide (key a = k)) (insert cmp x l)
  = List.filter (fun a => bool_decide (key a = k)) (x :: l).
Proof.
  induction l as [|y l IH]; [done|].
  cbn [insert]. rewrite cmp_key. destruct (lex_ltb (key y) (key x)) eqn:E; [|done].
  cbn [List.filter] in *. rewrite IH.
  repeat case_bool_decide; try done.
  assert (key y = key x) as Heq by congruence.
  rewrite Heq, lex_irrefl in E. done.
Qed.

Lemma sort_stable k l :
  List.filter (fun a => bool_decide (key a = k)) (sort cmp l)
  = List.filter (fun a => bool_decide (key a = k)) l.
Proof.
  induction l as [|x l IH]; [done|].
  cbn [sort]. rewrite insert_stable. cbn [List.filter]. by rewrite IH.
Qed.

(** The first element of the sorted list is the least member for (key,
    position). *)
Lemma head_sort_least l :
  l <> [] ->
  exists i m, head (sort cmp l) = Some m /\ l !! i = Some m /\
    forall j m', l !! j = Some m' ->
      lex_ltb (key m) (key m') = true \/ (key m = key m' /\ (i <= j)%nat).
Proof.
  induction l as [|x l IH]; [done|]. intros _.
  cbn [sort]. rewrite head_insert.
  destruct l as [|y l0] eqn:El.
  - exists 0%nat, x. simpl. split_and!; [done..|].
    intros [|j] m' Hj; simplify_eq/=. right. split; [done|lia].
  - rewrite <- El in *. destruct IH as (i & m & Hh & Hi & Hmin); [by subst|].
    rewrite Hh, cmp_key. destruct (lex_ltb (key m) (key x)) eqn:E.
    + exists (S i), m. split_and!; [done..|].
      intros [|j] m' Hj; simplify_eq/=; [by left|].
      destruct (Hmin j m' Hj) as [?|[? ?]]; [by left|right; split; [done|lia]].
    + exists 0%nat, x. split_and!; [done..|].
      intros [|j] m' Hj; simplify_eq/=; [right; split; [done|lia]|].
      destruct (lex_trichotomy (key x) (key m')) as [?|[?|Hlt]]; [by left|right; split; [done|lia]|].
      exfalso. destruct (Hmin j m' Hj) as [Hm|[Hm _]].
      * pose proof (lex_trans _ _ _ Hm Hlt). congruence.
      * rewrite <- Hm in Hlt. congruence.
Qed.

End SortKeyed.

Section FirstLeast.
Context {A : Type} (cmp : A -> A -> float) (key : A -> Z * Z).
Hypothesis cmp_key : forall a b, (0 <? cmp a b)%float = lex_ltb (key b) (key a).

Lemma head_sort_first_least l : head (sort cmp l) = first_least key l.
Proof.
  induction l as [|x l IH]; [done|].
  cbn [sort first_least foldr]. rewrite head_insert. fold (first_least key l).
  rewrite <- IH. unfold pick_least. destruct (head (sort cmp l)); [|done].
  by rewrite cmp_key.
Qed.

(** Whether [x] wins against the best of a list does not depend on the
    other copies of [x] in that list. *)
Lemma pick_least_idem x acc :
  pick_least key x (Some (pick_least key x acc)) = pick_least key x acc.
Proof.
  unfold pick_least. destruct acc as [y|].
  - destruct (lex_ltb (key y) (key x)) eqn:E; [by rewrite E|by rewrite lex_irrefl].
  - by rewrite lex_irrefl.
Qed.

Lemma pick_least_above x y a :
  (forall u, a = Some u -> lex_ltb (key u) (key x) = false) ->
  pick_least key x (Some (pick_least key y a))
  = if lex_ltb (key y) (key x) then y else x.
Proof.
  intros Ha. unfold pick_least. destruct a as [u|]; [|done].
  specialize (Ha u eq_refl).
  destruct (lex_ltb (key u) (key y)) eqn:Euy, (lex_ltb (key y) (key x)) eqn:Eyx;
    rewrite ?Ha; try done.
  pose proof (lex_trans _ _ _ Euy Eyx). congruence.
Qed.

Lemma pick_least_below x a u :
  a = Some u -> lex_ltb (key u) (key x) = true ->
  forall a', pick_least key x a = pick_least key x a' -> a' = a.
Proof.
  intros -> Hu a'. unfold pick_least. rewrite Hu.
  destruct a' as [v|].
  - destruct (lex_ltb (key v) (key x)) eqn:Ev; [congruence|].
    intros ->. by rewrite lex_irrefl in Hu.
  - intros ->. by rewrite lex_irrefl in Hu.
Qed.

Lemma pick_least_congr x y a a' :
  pick_least key x a = pick_least key x a' ->
  pick_least key x (Some (pick_least key y a)) = pick_least key x (Some (pick_least key y a')).
Proof.
  intros H.
  destruct a as [u|] eqn:Ea.
  - destruct (lex_ltb (key u) (key x)) eqn:Eu.
    { by rewrite (pick_least_below x (Some u) u eq_refl Eu a' H). }
    destruct a' as [v|] eqn:Ea'.
    + destruct (lex_ltb (key v) (key x)) eqn:Ev.
      { by rewrite <- (pick_least_below x (Some v) v eq_refl Ev (Some u) (eq_sym H)). }
      rewrite !pick_least_above; [done|intros; by simplify_eq..].
    + rewrite !pick_least_above; [done|intros; by simplify_eq..].
  - destruct a' as [v|] eqn:Ea'.
    + destruct (lex_ltb (key v) (key x)) eqn:Ev.
      { by rewrite <- (pick_least_below x (Some v) v eq_refl Ev None (eq_sym H)). }
      rewrite !pick_least_above; [done|intros; by simplify_eq..].
    + done.
Qed.

End FirstLeast.

Lemma first_least_dedup (key : string -> Z * Z) l :
  first_least key (dedup l) = first_least key l.
Proof.
  assert (Hfilter : forall x L,
    pick_least key x (first_least key (filter (fun y => y ≠ x) L))
    = pick_least key x (first_least key L)).
  { intros x L. induction L as [|y L IH]; [done|].
    rewrite filter_cons. destruct (decide (y ≠ x)) as [Hne|Heq].
    - cbn [first_least foldr]. fold (first_least key L).
      fold (first_least key (filter (fun y => y ≠ x) L)).
      by apply pick_least_congr.
    - assert (y = x) as -> by (by destruct (decide (y = x))).
      cbn [first_least foldr]. fold (first_least key L).
      by rewrite IH, pick_least_idem. }
  induction l as [|x l IH]; [done|].
  cbn [dedup first_least foldr]. fold (first_least key l).
  fold (first_least key (filter (fun y => y ≠ x) (dedup l))).
  by rewrite Hfilter, IH.
Qed.

Lemma elem_of_dedup x l : x ∈ dedup l <-> x ∈ l.
Proof.
  induction l as [|y l IH]; [done|].
  cbn [dedup]. rewrite !elem_of_cons, list_elem_of_filter, IH.
  destruct (decide (x = y)); tauto.
Qed.

(** ** The loop, member by member *)

Section EngineFacts.
Variable pow : float -> float -> float.

Lemma init_fold_lookup l st m :
  counts (foldl init_member st l) !! m
    = (if decide (m ∈ l) then Some 0%float else counts st !! m) /\
  lastDates (foldl init_member st l) !! m
    = (if decide (m ∈ l) then Some 0%float else lastDates st !! m).
Proof.
  revert st. induction l as [|x l IH]; intros st.
  - split; case_decide; first [reflexivity | by exfalso; eapply elem_of_nil].
  - cbn [foldl]. destruct (IH (init_member st x)) as [-> ->]. cbn [init_member counts lastDates].
    destruct (decide (x = m)) as [->|Hne].
    + rewrite !lookup_insert_eq.
      destruct (decide (m ∈ m :: l)) as [_|n]; [|destruct n; by left].
      split; by case_decide.
    + rewrite !lookup_insert_ne by done.
      destruct (decide (m ∈ l)) as [i|n], (decide (m ∈ x :: l)) as [i'|n']; try done.
      * destruct n'. by right.
      * apply elem_of_cons in i' as [?|?]; congruence.
Qed.

Lemma init_counts present m :
  counts (init present) !! m = if decide (m ∈ present) then Some 0%float else None.
Proof. unfold init. by destruct (init_fold_lookup present (mkTally ∅ ∅) m) as [-> _]. Qed.

Lemma init_lastDates present m :
  lastDates (init present) !! m = if decide (m ∈ present) then Some 0%float else None.
Proof. unfold init. by destruct (init_fold_lookup present (mkTally ∅ ∅) m) as [_ ->]. Qed.

(** A ride whose driver is not tracked leaves the maps alone. *)
Lemma record_ride_untracked now st r :
  counts st !! driverId r = None -> record_ride pow now st r = st.
Proof.
  intros H. unfold record_ride. rewrite decide_False; [done|].
  rewrite H. by intros [? ?].
Qed.

Lemma record_ride_tracked now st r c :
  counts st !! driverId r = Some c ->
  record_ride pow now st r =
    {| counts := <[driverId r := (JS.or_zero (Some c) + 1 * weight pow now (date r))%float]> (counts st);
       lastDates := <[driverId r := JS.Math_max (JS.or_zero (lastDates st !! driverId r)) (date r)]>
                      (lastDates st) |}.
Proof.
  intros H. unfold record_ride. rewrite decide_True by (rewrite H; eauto).
  by rewrite H.
Qed.

Lemma fold_tracked now h : forall st m c l,
  counts st !! m = Some c -> lastDates st !! m = Some l ->
  counts (foldl (record_ride pow now) st h) !! m = Some (foldl (count_step pow now m) c h) /\
  lastDates (foldl (record_ride pow now) st h) !! m = Some (foldl (last_step m) l h).
Proof.
  induction h as [|r h IH]; intros st m c l Hc Hl; [done|].
  cbn [foldl].
  destruct (counts st !! driverId r) as [c'|] eqn:Hr.
  - rewrite (record_ride_tracked _ _ _ _ Hr).
    destruct (decide (driverId r = m)) as [E|E].
    + assert (c' = c) as -> by congruence.
      apply IH; cbn [counts lastDates]; rewrite E, lookup_insert_eq.
      * unfold count_step. by rewrite decide_True.
      * unfold last_step. by rewrite decide_True, Hl.
    + apply IH; cbn [counts lastDates]; rewrite lookup_insert_ne by done.
      * unfold count_step. by rewrite decide_False.
      * unfold last_step. by rewrite decide_False.
  - rewrite (record_ride_untracked _ _ _ Hr).
    assert (driverId r <> m) as E by congruence.
    apply IH.
    + unfold count_step. by rewrite decide_False.
    + unfold last_step. by rewrite decide_False.
Qed.

Lemma fold_untracked now h : forall st m,
  counts st !! m = None ->
  counts (foldl (record_ride pow now) st h) !! m = None /\
  lastDates (foldl (record_ride pow now) st h) !! m = lastDates st !! m.
Proof.
  induction h as [|r h IH]; intros st m Hc; simpl; [done|].
  destruct (counts st !! driverId r) as [c'|] eqn:Hr.
  - rewrite (record_ride_tracked _ _ _ _ Hr).
    assert (driverId r <> m) as Hne by congruence.
    destruct (IH (mkTally (<[driverId r := (JS.or_zero (Some c') + 1 * weight pow now (date r))%float]> (counts st))
                          (<[driverId r := JS.Math_max (JS.or_zero (lastDates st !! driverId r)) (date r)]> (lastDates st)))
                 m) as [-> ->]; simpl; by rewrite ?lookup_insert_ne.
  - rewrite (record_ride_untracked _ _ _ Hr). by apply IH.
Qed.

Lemma tally_counts now present h m :
  counts (tally_of pow now present h) !! m
    = if decide (m ∈ present) then Some (member_count pow now m h) else None.
Proof.
  unfold tally_of, member_count.
  pose proof (init_counts present m) as Hc. pose proof (init_lastDates present m) as Hl.
  destruct (decide (m ∈ present)).
  - by destruct (fold_tracked now h _ _ _ _ Hc Hl) as [-> _].
  - by destruct (fold_untracked now h _ _ Hc) as [-> _].
Qed.

Lemma tally_lastDates now present h m :
  lastDates (tally_of pow now present h) !! m
    = if decide (m ∈ present) then Some (member_last m h) else None.
Proof.
  unfold tally_of, member_last.
  pose proof (init_counts present m) as Hc. pose proof (init_lastDates present m) as Hl.
  destruct (decide (m ∈ present)).
  - by destruct (fold_tracked now h _ _ _ _ Hc Hl) as [_ ->].
  - destruct (fold_untracked now h _ _ Hc) as [_ ->]. done.
Qed.

(** The maps are determined by membership and the per-member folds. *)
Lemma tally_ext now present present' h h' :
  (forall m, m ∈ present <-> m ∈ present') ->
  (forall m, m ∈ present ->
     member_count pow now m h = member_count pow now m h' /\ member_last m h = member_last m h') ->
  tally_of pow now present h = tally_of pow now present' h'.
Proof.
  intros Hp Hm.
  assert (counts (tally_of pow now present h) = counts (tally_of pow now present' h')) as E1.
  { apply map_eq. intros m. rewrite !tally_counts.
    destruct (decide (m ∈ present)) as [i|n].
    - rewrite decide_True by (by apply Hp). by destruct (Hm m i) as [-> _].
    - rewrite decide_False by (by rewrite <- Hp). done. }
  assert (lastDates (tally_of pow now present h) = lastDates (tally_of pow now present' h')) as E2.
  { apply map_eq. intros m. rewrite !tally_lastDates.
    destruct (decide (m ∈ present)) as [i|n].
    - rewrite decide_True by (by apply Hp). by destruct (Hm m i) as [_ ->].
    - rewrite decide_False by (by rewrite <- Hp). done. }
  destruct (tally_of pow now present h), (tally_of pow now present' h'). simpl in *. congruence.
Qed.

End EngineFacts.



Section Ranking.
Variable pow : float -> float -> float.

Lemma well_formed_ride now present h r :
  well_formed pow now present h = true -> r ∈ h -> driverId r ∈ present ->
  is_nan (date r) = false /\ (0 <=? weight pow now (date r))%float = true.
Proof.
  unfold well_formed. rewrite forallb_forall. intros H Hr Hp.
  specialize (H r (proj1 (list_elem_of_In _ _) Hr)).
  rewrite bool_decide_true in H by done. simpl in H.
  unfold ride_ok in H. apply andb_true_iff in H as [H1 H2].
  by apply negb_true_iff in H1.
Qed.

Lemma well_formed_cons now present r h :
  well_formed pow now present (r :: h) = true ->
  (driverId r ∈ present -> is_nan (date r) = false /\ (0 <=? weight pow now (date r))%float = true)
  /\ well_formed pow now present h = true.
Proof.
  intros H. split.
  - intros Hp. eapply well_formed_ride; [exact H|by left|done].
  - unfold well_formed in *. simpl in H. by apply andb_true_iff in H as [_ H].
Qed.

Lemma well_formed_app now present h1 h2 :
  well_formed pow now present (h1 ++ h2) =
  well_formed pow now present h1 && well_formed pow now present h2.
Proof. unfold well_formed. apply forallb_app. Qed.

Lemma fold_count_unsigned now present m h : forall c,
  m ∈ present -> well_formed pow now present h = true -> unsigned c = true ->
  unsigned (foldl (count_step pow now m) c h) = true.
Proof.
  induction h as [|r h IH]; intros c Hm Hw U; [done|].
  apply well_formed_cons in Hw as [Hr Hw]. cbn [foldl]. apply IH; try done.
  unfold count_step. case_decide as E; [|done]. subst m.
  destruct (Hr Hm) as [_ Hle].
  rewrite or_zero_unsigned, mul_one_l by done. by apply add_unsigned.
Qed.

Lemma fold_last_unsigned now present m h : forall l,
  m ∈ present -> well_formed pow now present h = true -> unsigned l = true ->
  unsigned (foldl (last_step m) l h) = true.
Proof.
  induction h as [|r h IH]; intros l Hm Hw U; [done|].
  apply well_formed_cons in Hw as [Hr Hw]. cbn [foldl]. apply IH; try done.
  unfold last_step. case_decide as E; [|done]. subst m.
  destruct (Hr Hm) as [Hn _].
  rewrite or_zero_unsigned by done. by apply Math_max_unsigned.
Qed.

(** The last-drive instant only moves up, and ends at or above the date
    of every ride of the member. *)
Lemma fold_last_ge now present m h : forall l,
  m ∈ present -> well_formed pow now present h = true -> unsigned l = true ->
  (ord l <= ord (foldl (last_step m) l h))%Z /\
  forall r, r ∈ h -> driverId r = m -> (ord (date r) <= ord (foldl (last_step m) l h))%Z.
Proof.
  induction h as [|r h IH]; intros l Hm Hw U.
  - split; [done|]. intros r Hr. by apply elem_of_nil in Hr.
  - apply well_formed_cons in Hw as [Hr Hw]. cbn [foldl].
    assert (unsigned (last_step m l r) = true
            /\ (ord l <= ord (last_step m l r))%Z
            /\ (driverId r = m -> (ord (date r) <= ord (last_step m l r))%Z)) as (U' & Hl & Hd).
    { unfold last_step. case_decide as E; [|done]. subst m.
      destruct (Hr Hm) as [Hn _]. rewrite or_zero_unsigned by done.
      rewrite Math_max_ord by done. split; [by apply Math_max_unsigned|lia]. }
    destruct (IH _ Hm Hw U') as [IH1 IH2]. split; [lia|].
    intros r' [->|Hr']%elem_of_cons E; [specialize (Hd E); lia|by apply IH2].
Qed.

Lemma tally_of_unsigned now present h :
  well_formed pow now present h = true -> tally_unsigned (tally_of pow now present h).
Proof.
  intros Hw a. unfold count_of, last_of. rewrite tally_counts, tally_lastDates.
  case_decide; [|done]. simpl. split.
  - by eapply fold_count_unsigned.
  - by eapply fold_last_unsigned.
Qed.

(** A present member without a ride has count [0] and last drive [0]. *)
Lemma never_driven_zero now present h m :
  (forall r, r ∈ h -> driverId r <> m) ->
  count_of (tally_of pow now present h) m = 0%float /\
  last_of (tally_of pow now present h) m = 0%float.
Proof.
  intros Hm. unfold count_of, last_of. rewrite tally_counts, tally_lastDates.
  case_decide; [|done]. cbn [JS.nullish_zero]. unfold member_count, member_last.
  assert (forall c l, foldl (count_step pow now m) c h = c /\ foldl (last_step m) l h = l) as E.
  { induction h as [|r h IH]; intros c l; [done|]. cbn [foldl].
    unfold count_step at 2, last_step at 2.
    rewrite !decide_False by (apply Hm; by left).
    apply IH. intros r' Hr'. apply Hm. by right. }
  apply E.
Qed.

(** The last drive of a present member is not before any of their rides. *)
Lemma last_of_covers now present h r :
  well_formed pow now present h = true -> r ∈ h -> driverId r ∈ present ->
  (date r <=? last_of (tally_of pow now present h) (driverId r))%float = true.
Proof.
  intros Hw Hr Hp. unfold last_of. rewrite tally_lastDates, decide_True by done.
  cbn [JS.nullish_zero]. unfold member_last.
  destruct (fold_last_ge now present (driverId r) h 0%float Hp Hw eq_refl) as [_ H].
  destruct (well_formed_ride _ _ _ _ Hw Hr Hp) as [Hn _].
  rewrite leb_ord; [apply Z.leb_le; by apply H|done|].
  apply unsigned_not_nan. by eapply fold_last_unsigned.
Qed.

Lemma compareFn_reads st a b :
  compareFn st a b =
  if JS.strict_ne (count_of st a) (count_of st b)
  then (count_of st a - count_of st b)%float
  else (last_of st a - last_of st b)%float.
Proof. reflexivity. Qed.

(** The comparator sends [a] behind [b] exactly when [b] has the
    strictly smaller (count, last drive). *)
Lemma compareFn_key st a b :
  tally_unsigned st ->
  (0 <? compareFn st a b)%float = lex_ltb (zkey st b) (zkey st a).
Proof.
  intros Hst. destruct (Hst a) as [Ua La], (Hst b) as [Ub Lb].
  unfold compareFn, zkey, lex_ltb, JS.strict_ne. fold (count_of st a) (count_of st b).
  fold (last_of st a) (last_of st b). simpl.
  rewrite eqb_ord by auto using unsigned_not_nan.
  destruct (Z.eqb_spec (ord (count_of st a)) (ord (count_of st b))) as [E|E]; simpl.
  - rewrite sub_pos_ltb, ltb_ord by auto using unsigned_not_nan.
    rewrite E, Z.ltb_irrefl, Z.eqb_refl. done.
  - rewrite sub_pos_ltb, ltb_ord by auto using unsigned_not_nan.
    destruct (Z.eqb_spec (ord (count_of st b)) (ord (count_of st a))); [congruence|].
    by rewrite andb_false_l, orb_false_r.
Qed.

Lemma ranks_before_key st a b :
  tally_unsigned st -> ranks_before st a b = lex_ltb (zkey st a) (zkey st b).
Proof.
  intros Hst. destruct (Hst a) as [Ua La], (Hst b) as [Ub Lb].
  unfold ranks_before, zkey, lex_ltb. simpl.
  by rewrite !ltb_ord, eqb_ord by auto using unsigned_not_nan.
Qed.

Lemma ranks_equal_key st a b :
  tally_unsigned st -> ranks_equal st a b = bool_decide (zkey st b = zkey st a).
Proof.
  intros Hst. destruct (Hst a) as [Ua La], (Hst b) as [Ub Lb].
  unfold ranks_equal, zkey. rewrite !eqb_ord by auto using unsigned_not_nan.
  destruct (Z.eqb_spec (ord (count_of st a)) (ord (count_of st b))) as [E|E],
    (Z.eqb_spec (ord (last_of st a)) (ord (last_of st b))) as [F|F]; simpl;
    symmetry; [apply bool_decide_eq_true|apply bool_decide_eq_false..]; congruence.
Qed.

End Ranking.

(** * The claims *)

Section Selection.
Variable pow : float -> float -> float.

Lemma nextDriver_nonempty clock present history nowISO :
  present <> [] ->
  nextDriver pow clock present history nowISO
  = head (sort (compareFn (tally_of pow (reference_time clock nowISO) present history)) present).
Proof. intros H. unfold nextDriver. by destruct present. Qed.

Lemma StronglySorted_weaken {A} (R S : A -> A -> Prop) l :
  (forall a b, R a b -> S a b) -> StronglySorted R l -> StronglySorted S l.
Proof.
  intros HRS. induction 1 as [|x l Hs IH Hx]; constructor; [done|].
  eapply Forall_impl; eauto.
Qed.

(** C1. For a non-empty present list and a history whose tracked rides
    are usable, the ranking [sort (compareFn st) present] is a stable sort
    of the present list by (weighted count, last drive) -- a permutation,
    ordered, with members of equal rank in input order -- and
    [nextDriver] returns its first element, which is the member least for
    (weighted count, last drive, position in the present list). The last
    drive of a member who never drove is [0], and the last drive of a
    member who drove is at or above the date of each of their rides. *)
Theorem nextDriver_first_ranked clock present history nowISO :
  present <> [] ->
  well_formed pow (reference_time clock nowISO) present history = true ->
  let st := tally_of pow (reference_time clock nowISO) present history in
  let sorted := sort (compareFn st) present in
  (sorted ≡ₚ present /\
   StronglySorted (fun a b => ranks_before st b a = false) sorted /\
   forall a, List.filter (ranks_equal st a) sorted = List.filter (ranks_equal st a) present) /\
  (exists i m,
     nextDriver pow clock present history nowISO = Some m /\
     head sorted = Some m /\
     present !! i = Some m /\
     forall j m', present !! j = Some m' ->
       ranks_before st m m' = true \/ (ranks_equal st m m' = true /\ (i <= j)%nat)) /\
  (forall m, (forall r, r ∈ history -> driverId r <> m) -> last_of st m = 0%float) /\
  (forall r, r ∈ history -> driverId r ∈ present ->
     (date r <=? last_of st (driverId r))%float = true).
Proof.
  intros Hne Hwf st sorted.
  pose proof (tally_of_unsigned pow _ _ _ Hwf) as Hst. fold st in Hst.
  pose proof (fun a b => compareFn_key st a b Hst) as Hkey.
  split_and!.
  - apply sort_perm.
  - eapply StronglySorted_weaken; [|apply (sort_sorted _ (zkey st) Hkey)].
    intros a b Hab. by rewrite ranks_before_key.
  - intros a. unfold sorted.
    rewrite (List.filter_ext _ (fun b => bool_decide (zkey st b = zkey st a)))
      by (intros b; by apply ranks_equal_key).
    rewrite (List.filter_ext (ranks_equal st a) (fun b => bool_decide (zkey st b = zkey st a)))
      by (intros b; by apply ranks_equal_key).
    apply (sort_stable _ (zkey st) Hkey).
  - destruct (head_sort_least _ (zkey st) Hkey present Hne) as (i & m & Hh & Hi & Hmin).
    exists i, m. rewrite nextDriver_nonempty by done. split_and!; [done..|].
    intros j m' Hj. rewrite ranks_before_key, ranks_equal_key by done.
    destruct (Hmin j m' Hj) as [?|[? ?]]; [by left|right].
    split; [|done]. by apply bool_decide_eq_true.
  - intros m Hm. by apply never_driven_zero.
  - intros r Hr Hp. by apply last_of_covers.
Qed.

(** C3. [nextDriver] is total; it answers [null] exactly for the empty
    present list, and otherwise a member of the present list, whatever the
    history, the clock and [Math.pow] are. *)
Theorem nextDriver_null_iff_empty clock present history nowISO :
  match nextDriver pow clock present history nowISO with
  | None => present = []
  | Some m => m ∈ present /\ present <> []
  end.
Proof.
  destruct present as [|x l]; [done|].
  rewrite nextDriver_nonempty by done.
  set (cmp := compareFn _).
  destruct (head (sort cmp (x :: l))) as [m|] eqn:Hh.
  - split; [|done]. rewrite <- (sort_perm cmp (x :: l)).
    destruct (sort cmp (x :: l)); simplify_eq/=. by left.
  - apply head_None in Hh.
    pose proof (sort_perm cmp (x :: l)) as Hp. rewrite Hh in Hp.
    by apply Permutation_nil_cons in Hp.
Qed.

Lemma compareFn_init present a b : (0 <? compareFn (init present) a b)%float = false.
Proof.
  unfold compareFn. rewrite !init_counts, !init_lastDates.
  by repeat case_decide.
Qed.

Lemma nextDriver_no_history clock x present nowISO :
  nextDriver pow clock (x :: present) [] nowISO = Some x.
Proof.
  rewrite nextDriver_nonempty by done. unfold tally_of. cbn [foldl].
  by rewrite sort_id by apply compareFn_init.
Qed.

(** C4. With an empty history every weighted count and every last-drive
    instant the comparator reads is [0], and the first member of the
    present list is returned. *)
Theorem nextDriver_empty_history clock x present nowISO :
  let st := tally_of pow (reference_time clock nowISO) (x :: present) [] in
  (forall a, count_of st a = 0%float /\ last_of st a = 0%float) /\
  nextDriver pow clock (x :: present) [] nowISO = Some x.
Proof.
  split; [|apply nextDriver_no_history].
  intros a. unfold count_of, last_of, tally_of. cbn [foldl].
  rewrite init_counts, init_lastDates. by case_decide.
Qed.

(** C5. A ride whose driver is not in the present list changes neither
    map, wherever it stands in the history, and so not the result. *)
Theorem absent_driver_ignored clock present h1 r h2 nowISO :
  driverId r ∉ present ->
  tally_of pow (reference_time clock nowISO) present (h1 ++ r :: h2)
    = tally_of pow (reference_time clock nowISO) present (h1 ++ h2)
  /\ nextDriver pow clock present (h1 ++ r :: h2) nowISO
     = nextDriver pow clock present (h1 ++ h2) nowISO.
Proof.
  intros Hr.
  assert (forall now, tally_of pow now present (h1 ++ r :: h2) = tally_of pow now present (h1 ++ h2)) as E.
  { intros now. unfold tally_of. rewrite !foldl_app. cbn [foldl]. f_equal.
    apply record_ride_untracked. fold (tally_of pow now present h1).
    rewrite tally_counts. by rewrite decide_False. }
  split; [apply E|]. unfold nextDriver. by rewrite E.
Qed.

Lemma tally_of_entries now present history :
  tally_of pow now present (map history_entry history) = tally_of pow now present history.
Proof.
  unfold tally_of. generalize (init present) as st.
  induction history as [|r h IH]; intros st; [done|].
  cbn [map foldl]. by rewrite <- IH.
Qed.

(** C9. With [nowISO] supplied, the present list, the history and
    [nowISO] determine the result: the clock, the one input the caller
    does not pass, is not read, and of a ride nothing but its date and
    its driver is. *)
Theorem nextDriver_deterministic clock1 clock2 present history t :
  nextDriver pow clock1 present history (Some t)
    = nextDriver pow clock2 present history (Some t) /\
  nextDriver pow clock1 present history (Some t)
    = nextDriver pow clock2 present (map history_entry history) (Some t).
Proof.
  split; [reflexivity|].
  unfold nextDriver. cbn [reference_time]. by rewrite tally_of_entries.
Qed.

(** C10. The driver stored on a new ride is the first member of the
    present list, whatever rides the group already has. *)
Theorem addRide_stores_first_present clock group rides x present :
  addRide_driverId pow clock group rides (x :: present) = Some x.
Proof.
  unfold addRide_driverId. rewrite nextDriver_no_history.
  unfold JS.or_else. by destruct x.
Qed.


Lemma fold_count_filter now m h : forall c,
  foldl (count_step pow now m) c h
  = foldl (count_step pow now m) c (filter (fun r => driverId r = m) h).
Proof.
  induction h as [|r h IH]; intros c; [done|].
  rewrite filter_cons. cbn [foldl]. case_decide as E.
  - cbn [foldl]. apply IH.
  - rewrite <- IH. f_equal. unfold count_step. by rewrite decide_False.
Qed.

Lemma fold_last_filter m h : forall l,
  foldl (last_step m) l h = foldl (last_step m) l (filter (fun r => driverId r = m) h).
Proof.
  induction h as [|r h IH]; intros l; [done|].
  rewrite filter_cons. cbn [foldl]. case_decide as E.
  - cbn [foldl]. apply IH.
  - rewrite <- IH. f_equal. unfold last_step. by rewrite decide_False.
Qed.

(** C8, amended. Two histories in which every present member has the same
    rides in the same order give the same result, however the rides of
    different drivers are interleaved. *)
Theorem interleaving_irrelevant clock present h1 h2 nowISO :
  (forall m, m ∈ present ->
     filter (fun r => driverId r = m) h1 = filter (fun r => driverId r = m) h2) ->
  nextDriver pow clock present h1 nowISO = nextDriver pow clock present h2 nowISO.
Proof.
  intros H. unfold nextDriver.
  rewrite (tally_ext pow (reference_time clock nowISO) present present h1 h2); [done|done|].
  intros m Hm. unfold member_count, member_last.
  rewrite (fold_count_filter _ _ h1), (fold_count_filter _ _ h2).
  rewrite (fold_last_filter _ h1), (fold_last_filter _ h2).
  by rewrite (H m Hm).
Qed.

(** C7. Repeated IDs in the present list change neither the maps nor the
    result: the list behaves as the one with first occurrences only. *)
Theorem duplicates_ignored clock present history nowISO :
  well_formed pow (reference_time clock nowISO) present history = true ->
  tally_of pow (reference_time clock nowISO) present history
    = tally_of pow (reference_time clock nowISO) (dedup present) history
  /\ nextDriver pow clock present history nowISO
     = nextDriver pow clock (dedup present) history nowISO.
Proof.
  intros Hwf.
  assert (tally_of pow (reference_time clock nowISO) present history
          = tally_of pow (reference_time clock nowISO) (dedup present) history) as E.
  { apply tally_ext; [|done]. intros m. by rewrite elem_of_dedup. }
  split; [exact E|].
  destruct present as [|x l]; [done|].
  rewrite !nextDriver_nonempty by done. rewrite <- E.
  pose proof (tally_of_unsigned pow _ _ _ Hwf) as Hst.
  set (st := tally_of _ _ _ _) in *.
  pose proof (fun a b => compareFn_key st a b Hst) as Hkey.
  rewrite !(head_sort_first_least _ (zkey st) Hkey).
  by rewrite first_least_dedup.
Qed.

End Selection.

Section Decay.
Variable pow : float -> float -> float.
Local Open Scope Z_scope.

Lemma nextDriver_pair clock a b history nowISO :
  nextDriver pow clock [a; b] history nowISO
  = Some (if (0 <? compareFn (tally_of pow (reference_time clock nowISO) [a; b] history) a b)%float
          then b else a).
Proof. unfold nextDriver. cbn [length Nat.eqb sort insert]. by case (0 <? _)%float. Qed.



End Decay.

(** ** The theorems at sample inputs *)

Import Sample.

(** The ranking of "A", "B", "C" after one ride of "A". *)
Lemma nextDriver_first_ranked_witness :
  let present := ["A"; "B"; "C"] in
  let st := tally_of Reference.pow now present forty_days in
  let sorted := sort (compareFn st) present in
  (sorted ≡ₚ present /\
   StronglySorted (fun a b => ranks_before st b a = false) sorted /\
   forall a, List.filter (ranks_equal st a) sorted = List.filter (ranks_equal st a) present) /\
  (exists i m,
     nextDriver Reference.pow 0 present forty_days (Some now) = Some m /\
     head sorted = Some m /\
     present !! i = Some m /\
     forall j m', present !! j = Some m' ->
       ranks_before st m m' = true \/ (ranks_equal st m m' = true /\ (i <= j)%nat)) /\
  (forall m, (forall r, r ∈ forty_days -> driverId r <> m) -> last_of st m = 0%float) /\
  (forall r, r ∈ forty_days -> driverId r ∈ present ->
     (date r <=? last_of st (driverId r))%float = true).
Proof.
  apply (nextDriver_first_ranked Reference.pow 0 ["A"; "B"; "C"] forty_days (Some now)).
  - discriminate.
  - vm_compute. reflexivity.
Defined.


(** A ride of "Z", who is not present, between two rides of present
    members. *)
Lemma absent_driver_ignored_witness :
  tally_of Reference.pow now ["A"; "B"] ([ride "A" (now - 40 * day)] ++ ride "Z" (now - day) :: [ride "B" (now - day)])
    = tally_of Reference.pow now ["A"; "B"] ([ride "A" (now - 40 * day)] ++ [ride "B" (now - day)])
  /\ nextDriver Reference.pow 0 ["A"; "B"] ([ride "A" (now - 40 * day)] ++ ride "Z" (now - day) :: [ride "B" (now - day)]) (Some now)
     = nextDriver Reference.pow 0 ["A"; "B"] ([ride "A" (now - 40 * day)] ++ [ride "B" (now - day)]) (Some now).
Proof.
  apply (absent_driver_ignored Reference.pow 0 ["A"; "B"] [ride "A" (now - 40 * day)]
           (ride "Z" (now - day)) [ride "B" (now - day)] (Some now)).
  intros H. repeat (apply elem_of_cons in H as [H|H]; [discriminate H|]).
  by apply elem_of_nil in H.
Defined.

(** "A" and "B" listed twice. *)
Lemma duplicates_ignored_witness :
  tally_of Reference.pow now ["A"; "B"; "A"; "C"; "B"] old_and_recent
    = tally_of Reference.pow now (dedup ["A"; "B"; "A"; "C"; "B"]) old_and_recent
  /\ nextDriver Reference.pow 0 ["A"; "B"; "A"; "C"; "B"] old_and_recent (Some now)
     = nextDriver Reference.pow 0 (dedup ["A"; "B"; "A"; "C"; "B"]) old_and_recent (Some now).
Proof.
  apply (duplicates_ignored Reference.pow 0 ["A"; "B"; "A"; "C"; "B"] old_and_recent (Some now)).
  vm_compute. reflexivity.
Defined.

(** The ride of "B" before or after the second ride of "A". *)
Lemma interleaving_irrelevant_witness :
  nextDriver Reference.pow 0 ["A"; "B"] [ride "A" (now - 400 * day); ride "B" (now - day); ride "A" (now - 40 * day)] (Some now)
  = nextDriver Reference.pow 0 ["A"; "B"] [ride "A" (now - 400 * day); ride "A" (now - 40 * day); ride "B" (now - day)] (Some now).
Proof.
  apply (interleaving_irrelevant Reference.pow 0 ["A"; "B"]).
  intros m Hm.
  repeat (apply elem_of_cons in Hm as [->|Hm]; [reflexivity|]).
  by apply elem_of_nil in Hm.
Defined.

(** Every [Math.pow] that is 1 at exponent 0 and strictly between [2^-54]
    and [2^-53] at (0.92, 445), where [0.92^445] lies, sums the rides of
    "A" to [(1 + w) + w = 1] with today's ride first and to
    [(w + w) + 1 = 1 + 2^-52] with today's ride last. *)
Lemma own_rides_order_any_pow pow clock :
  pow DECAY 0%float = 1%float ->
  (0x1p-54 <? pow DECAY 445)%float = true -> (pow DECAY 445 <? 0x1p-53)%float = true ->
  nextDriver pow clock ["A"; "B"] today_first (Some now) = Some "A" /\
  nextDriver pow clock ["A"; "B"] today_last (Some now) = Some "B".
Proof.
  intros H0 Hl Hu. set (w := pow DECAY 445%float) in *.
  destruct (tiny_weight_shape w Hl Hu) as (m & Hw & _).
  destruct (tiny_doubled w Hl Hu) as (m2 & Hww & _).
  pose proof (finite_unsigned _ _ _ Hw) as Uw.
  pose proof (finite_unsigned _ _ _ Hww) as Uww.
  assert (forall h, count_of (tally_of pow now ["A"; "B"] h) "A" = member_count pow now "A" h) as EA
    by (intros h; unfold count_of; by rewrite tally_counts).
  assert (forall h, count_of (tally_of pow now ["A"; "B"] h) "B" = member_count pow now "B" h) as EB
    by (intros h; unfold count_of; by rewrite tally_counts).
  assert (forall h, last_of (tally_of pow now ["A"; "B"] h) "A" = member_last "A" h) as LA
    by (intros h; unfold last_of; by rewrite tally_lastDates).
  assert (forall h, last_of (tally_of pow now ["A"; "B"] h) "B" = member_last "B" h) as LB
    by (intros h; unfold last_of; by rewrite tally_lastDates).
  assert (member_count pow now "A" today_first = 1%float) as C1.
  { unfold member_count, today_first, count_step. cbn [foldl driverId ride date].
    destruct (decide ("A" = "A")) as [_|?]; [|done].
    destruct (decide ("B" = "A")) as [?|_]; [done|].
    rewrite !mul_one_l.
    change (weight pow now now) with (pow DECAY 0%float).
    change (weight pow now (now - 445 * month)) with w. rewrite H0.
    change (JS.or_zero (Some 0%float) + 1)%float with 1%float.
    change (JS.or_zero (Some 1%float)) with 1%float.
    rewrite (one_plus_tiny w Hl Hu).
    change (JS.or_zero (Some 1%float)) with 1%float.
    by rewrite (one_plus_tiny w Hl Hu). }
  assert (member_count pow now "A" today_last = 0x1.0000000000001p+0%float) as C2.
  { unfold member_count, today_last, count_step. cbn [foldl driverId ride date].
    destruct (decide ("A" = "A")) as [_|?]; [|done].
    destruct (decide ("B" = "A")) as [?|_]; [done|].
    rewrite !mul_one_l.
    change (weight pow now now) with (pow DECAY 0%float).
    change (weight pow now (now - 445 * month)) with w. rewrite H0.
    change (JS.or_zero (Some 0%float)) with 0%float.
    rewrite (zero_plus_positive w _ _ Hw), (or_zero_unsigned w Uw), (or_zero_unsigned _ Uww).
    by apply doubled_tiny_plus_one. }
  assert (forall h, h = today_first \/ h = today_last -> member_count pow now "B" h = 1%float) as CB.
  { assert (forall c, count_step pow now "B" c (ride "B" now)
                      = (JS.or_zero (Some c) + 1)%float) as Hstep.
    { intros c. unfold count_step. cbn [driverId ride date].
      destruct (decide ("B" = "B")) as [_|?]; [|done]. rewrite mul_one_l.
      change (weight pow now now) with (pow DECAY 0%float). by rewrite H0. }
    intros h [->| ->]; unfold member_count, today_first, today_last; cbn [foldl];
      rewrite Hstep; unfold count_step; cbn [driverId ride];
      destruct (decide ("A" = "B")) as [?|_]; done. }
  split; rewrite nextDriver_pair, compareFn_reads; cbn [reference_time];
    rewrite !EA, !EB, !LA, !LB, ?C1, ?C2, !CB by auto.
  - vm_compute. done.
  - vm_compute. done.
Qed.

(** C8 as stated fails. The same four rides, the rides of "A" in two
    orders: with today's ride first the count of "A" is 1, a tie with "B"
    in count and in last drive, which the input order settles for "A";
    with today's ride last it is [1 + 2^-52], above the count 1 of "B". *)
Lemma own_rides_order_matters :
  today_last ≡ₚ today_first /\
  nextDriver Reference.pow 0 ["A"; "B"] today_first (Some now) = Some "A" /\
  nextDriver Reference.pow 0 ["A"; "B"] today_last (Some now) = Some "B".
Proof.
  split.
  - unfold today_last, today_first.
    etrans; [apply perm_skip, perm_swap|apply perm_swap].
  - apply own_rides_order_any_pow; vm_compute; reflexivity.
Qed.



(** ** The scenarios of the specification, run with [Reference.pow] *)

Example scenario_one_old_ride :
  nextDriver Reference.pow 0 ["A"; "B"; "C"] forty_days (Some now) = Some "B".
Proof. vm_compute. reflexivity. Qed.

Example scenario_old_and_recent :
  nextDriver Reference.pow 0 ["A"; "B"] old_and_recent (Some now) = Some "A".
Proof. vm_compute. reflexivity. Qed.

Example scenario_nobody_present :
  nextDriver Reference.pow 0 [] old_and_recent (Some now) = None.
Proof. reflexivity. Qed.

(** The stored driver of a new ride ignores the rides of the group: with
    these rides [nextDriver] itself would answer "A". *)
Example addRide_ignores_history :
  addRide_driverId Reference.pow now group old_and_recent ["B"; "A"] = Some "B" /\
  nextDriver Reference.pow now ["B"; "A"] old_and_recent None = Some "A".
Proof. vm_compute. split; reflexivity. Qed.

(** Without [nowISO] the clock is read, and two clocks can disagree (here
    because a ride not yet past has weight 1 whatever its date). *)
Example clock_read_without_nowISO :
  nextDriver Reference.pow now ["A"; "B"] with_future_ride None = Some "B" /\
  nextDriver Reference.pow (now + 12 * month) ["A"; "B"] with_future_ride None = Some "A".
Proof. vm_compute. split; reflexivity. Qed.

(** * The pages *)

(** ** Strings *)

Lemma append_nil_l s : EmptyString +:+ s = s.
Proof. reflexivity. Qed.

Lemma append_cons c a s : String c a +:+ s = String c (a +:+ s).
Proof. reflexivity. Qed.

Lemma split_from_split sep s :
  Str.split sep s = (Str.split_from sep s).1 :: (Str.split_from sep s).2.
Proof. unfold Str.split. by destruct (Str.split_from sep s). Qed.

Lemma split_cons_sep sep s : Str.split sep (String sep s) = EmptyString :: Str.split sep s.
Proof.
  unfold Str.split. cbn [Str.split_from]. destruct (Str.split_from sep s).
  by rewrite Ascii.eqb_refl.
Qed.

Lemma split_cons_other sep c s :
  c <> sep ->
  Str.split sep (String c s)
  = String c (Str.split_from sep s).1 :: (Str.split_from sep s).2.
Proof.
  intros Hc. unfold Str.split. cbn [Str.split_from]. destruct (Str.split_from sep s).
  by destruct (Ascii.eqb_spec c sep).
Qed.

Lemma split_no_sep sep s : Str.has sep s = false -> Str.split sep s = [s].
Proof.
  induction s as [|c s IH]; [done|]. cbn [Str.has]. intros [Hc Hs]%orb_false_iff.
  apply Ascii.eqb_neq in Hc. rewrite split_cons_other by done.
  specialize (IH Hs). rewrite split_from_split in IH. by injection IH as -> ->.
Qed.

Lemma split_app sep a b :
  Str.split sep (a +:+ String sep b) = Str.split sep a ++ Str.split sep b.
Proof.
  induction a as [|c a IH]; rewrite ?append_nil_l, ?append_cons.
  - by rewrite split_cons_sep.
  - destruct (Ascii.eqb_spec c sep) as [->|Hc].
    + by rewrite !split_cons_sep, IH.
    + rewrite !split_cons_other by done.
      rewrite !split_from_split in IH. cbn [app] in IH. injection IH as E1 E2. rewrite E1, E2. by rewrite (split_from_split sep b).
Qed.

Lemma split_last sep s : is_Some (last (Str.split sep s)).
Proof. rewrite split_from_split. apply last_is_Some. done. Qed.

Lemma last_split_app sep a b :
  last (Str.split sep (a +:+ String sep b)) = last (Str.split sep b).
Proof.
  rewrite split_app. destruct (split_last sep b) as [x Hx].
  rewrite Hx. apply last_Some in Hx as [l ->]. by rewrite app_assoc, last_snoc.
Qed.

Lemma split_from_first sep s :
  Str.has sep (Str.split_from sep s).1 = false /\
  (s = (Str.split_from sep s).1 \/ exists r, s = (Str.split_from sep s).1 +:+ String sep r).
Proof.
  induction s as [|c s [IH1 IH2]]; [by split; [|left]|].
  cbn [Str.split_from]. destruct (Str.split_from sep s) as [p rest]. cbn [fst] in *.
  destruct (Ascii.eqb_spec c sep) as [->|Hc]; cbn [fst].
  - split; [done|]. right. by exists s.
  - split.
    + cbn [Str.has]. by rewrite IH1, (proj2 (Ascii.eqb_neq c sep)).
    + destruct IH2 as [->|[r ->]]; [by left|right]. by exists r.
Qed.

(** The first character of every piece, joined: the characters that open
    a word. *)
Lemma join_char0_split s :
  Str.join_empty (map Str.char0 (Str.split Str.space s)) = word_starts true s /\
  Str.join_empty (map Str.char0 (Str.split_from Str.space s).2) = word_starts false s.
Proof.
  induction s as [|c s [IH1 IH2]]; [done|].
  cbn [word_starts]. destruct (Ascii.eqb_spec c Str.space) as [->|Hc].
  - rewrite split_cons_sep. split; [exact IH1|].
    cbn [Str.split_from]. rewrite Ascii.eqb_refl.
    rewrite split_from_split in IH1. by destruct (Str.split_from Str.space s).
  - rewrite split_cons_other by done. split.
    + cbn [map Str.join_empty foldr Str.char0 default]. fold (Str.join_empty (map Str.char0 (Str.split_from Str.space s).2)).
      by rewrite IH2.
    + cbn [Str.split_from]. destruct (Str.split_from Str.space s) as [p rest].
      by destruct (Ascii.eqb_spec c Str.space).
Qed.

(** ** Selecting who is present *)

Lemma togglePresent_elem prev id x :
  x ∈ togglePresent prev id <-> (x = id /\ id ∉ prev) \/ (x <> id /\ x ∈ prev).
Proof.
  unfold togglePresent. case_bool_decide as H.
  - rewrite list_elem_of_filter. destruct (decide (x = id)); intuition congruence.
  - rewrite elem_of_app, list_elem_of_singleton. destruct (decide (x = id)); intuition congruence.
Qed.

Lemma togglePresent_NoDup prev id : NoDup prev -> NoDup (togglePresent prev id).
Proof.
  intros H. unfold togglePresent. case_bool_decide as Hin.
  - by apply NoDup_filter.
  - apply NoDup_app. split_and!; [done| |apply NoDup_singleton].
    intros x Hx ->%list_elem_of_singleton. done.
Qed.

Lemma presentAfter_snoc clicks id :
  presentAfter (clicks ++ [id]) = togglePresent (presentAfter clicks) id.
Proof. unfold presentAfter. by rewrite foldl_app. Qed.

Lemma presentAfter_NoDup clicks : NoDup (presentAfter clicks).
Proof.
  induction clicks as [|id clicks IH] using rev_ind; [constructor|].
  rewrite presentAfter_snoc. by apply togglePresent_NoDup.
Qed.

Lemma presentAfter_odd clicks x :
  x ∈ presentAfter clicks <-> Nat.odd (length (filter (fun y => y = x) clicks)) = true.
Proof.
  induction clicks as [|id clicks IH] using rev_ind.
  - split; [by intros ?%elem_of_nil|done].
  - rewrite presentAfter_snoc, togglePresent_elem, filter_app, length_app, IH.
    rewrite filter_cons, filter_nil. destruct (decide (id = x)) as [->|Hne].
    + cbn [length]. rewrite Nat.add_1_r, Nat.odd_succ, <- Nat.negb_odd.
      destruct (Nat.odd _); cbn [negb]; intuition congruence.
    + cbn [length]. rewrite Nat.add_0_r. intuition congruence.
Qed.

(** ** The engine, whatever the history *)

Section EngineTotal.
Variable pow : float -> float -> float.

Lemma nextDriver_elem clock present history nowISO m :
  nextDriver pow clock present history nowISO = Some m -> m ∈ present.
Proof.
  destruct present as [|x l]; [done|]. rewrite nextDriver_nonempty by done.
  set (cmp := compareFn _). intros Hh.
  rewrite <- (sort_perm cmp (x :: l)).
  destruct (sort cmp (x :: l)); simplify_eq/=. by left.
Qed.

Lemma nextDriver_None clock present history nowISO :
  nextDriver pow clock present history nowISO = None <-> present = [].
Proof.
  split; [|by intros ->].
  destruct present as [|x l]; [done|]. rewrite nextDriver_nonempty by done.
  set (cmp := compareFn _). intros Hh%head_None.
  pose proof (sort_perm cmp (x :: l)) as Hp. rewrite Hh in Hp.
  by apply Permutation_nil_cons in Hp.
Qed.

Lemma nextDriver_single clock a history nowISO :
  nextDriver pow clock [a] history nowISO = Some a.
Proof. reflexivity. Qed.

End EngineTotal.

(** ** NaN *)

Lemma nan_eq x : is_nan x = true -> x = nan.
Proof.
  rewrite is_nan_spec. intros H. apply Prim2SF_inj.
  destruct (Prim2SF x); try done.
Qed.

Lemma add_nan_r x : (x + nan)%float = nan.
Proof.
  apply Prim2SF_inj. rewrite add_spec. change (Prim2SF nan) with S754_nan.
  by destruct (Prim2SF x).
Qed.

Lemma sub_nan_r x : (x - nan)%float = nan.
Proof.
  apply Prim2SF_inj. rewrite sub_spec. change (Prim2SF nan) with S754_nan.
  by destruct (Prim2SF x).
Qed.

Lemma div_nan_l x : (nan / x)%float = nan.
Proof.
  apply Prim2SF_inj. rewrite div_spec. change (Prim2SF nan) with S754_nan.
  by destruct (Prim2SF x).
Qed.

Lemma months_nan now : months now nan = nan.
Proof. unfold months. by rewrite sub_nan_r, div_nan_l. Qed.

Section MoreEngine.
Variable pow : float -> float -> float.

(** The two steps after an unparsable date. *)
Lemma count_step_nan_date now m c r :
  is_nan (pow DECAY nan) = true -> driverId r = m -> is_nan (date r) = true ->
  count_step pow now m c r = nan.
Proof.
  intros Hpow Hr Hd. unfold count_step. rewrite decide_True by done.
  unfold weight. rewrite (nan_eq _ Hd), months_nan, (nan_eq _ Hpow), mul_one_l.
  apply add_nan_r.
Qed.

Lemma last_step_nan_date m l r :
  driverId r = m -> is_nan (date r) = true -> last_step m l r = nan.
Proof.
  intros Hr Hd. unfold last_step. rewrite decide_True by done.
  unfold JS.Math_max. by rewrite Hd, orb_true_r.
Qed.

(** From NaN, the next ride of the member starts afresh. *)
Lemma fold_count_from_nan now m h r' :
  r' ∈ h -> driverId r' = m ->
  foldl (count_step pow now m) nan h = foldl (count_step pow now m) 0%float h.
Proof.
  intros Hin Hr'. induction h as [|r h IH]; [by apply elem_of_nil in Hin|].
  cbn [foldl]. destruct (decide (driverId r = m)) as [E|E].
  - unfold count_step at 2 4. by rewrite !decide_True.
  - unfold count_step at 2 4. rewrite !decide_False by done.
    apply IH. apply elem_of_cons in Hin as [->|?]; [done|done].
Qed.

Lemma fold_last_from_nan m h r' :
  r' ∈ h -> driverId r' = m ->
  foldl (last_step m) nan h = foldl (last_step m) 0%float h.
Proof.
  intros Hin Hr'. induction h as [|r h IH]; [by apply elem_of_nil in Hin|].
  cbn [foldl]. destruct (decide (driverId r = m)) as [E|E].
  - unfold last_step at 2 4. by rewrite !decide_True.
  - unfold last_step at 2 4. rewrite !decide_False by done.
    apply IH. apply elem_of_cons in Hin as [->|?]; [done|done].
Qed.

(** The last-drive instant is the start value or the date of a ride. *)
Lemma fold_last_attained now present m h : forall l,
  m ∈ present -> well_formed pow now present h = true -> unsigned l = true ->
  foldl (last_step m) l h = l \/
  exists r, r ∈ h /\ driverId r = m /\ foldl (last_step m) l h = date r.
Proof.
  induction h as [|r h IH]; intros l Hm Hw U; [by left|].
  apply well_formed_cons in Hw as [Hr Hw]. cbn [foldl].
  assert (unsigned (last_step m l r) = true /\
          (last_step m l r = l \/ (driverId r = m /\ last_step m l r = date r))) as [U' Hs].
  { unfold last_step. case_decide as E; [|by split; [|left]]. subst m.
    destruct (Hr Hm) as [Hn _]. rewrite or_zero_unsigned by done.
    split; [by apply Math_max_unsigned|].
    unfold JS.Math_max. rewrite Hn, (unsigned_not_nan _ U). cbn [orb].
    destruct (_ && _); [by right|]. destruct (l <? date r)%float; [by right|by left]. }
  destruct (IH _ Hm Hw U') as [E|(r' & Hin & Hd & E)].
  - rewrite E. destruct Hs as [->|[Hd E']]; [by left|right].
    exists r. split_and!; [by left|done..].
  - right. exists r'. split_and!; [by right|done..].
Qed.

End MoreEngine.

(** ** Who is selected, and who is suggested *)

Lemma presentAfter_same id n : forall b : bool,
  foldl togglePresent (if b then [id] else []) (replicate n id)
  = if xorb b (Nat.odd n) then [id] else [].
Proof.
  induction n as [|n IH]; intros b; [by destruct b|].
  cbn [replicate foldl]. rewrite Nat.odd_succ, <- Nat.negb_odd.
  assert (togglePresent (if b then [id] else []) id = if negb b then [id] else []) as ->.
  { destruct b; unfold togglePresent;
      [rewrite bool_decide_true by (by left)
      |by rewrite bool_decide_false by (by intros ?%elem_of_nil)].
    by rewrite filter_cons, filter_nil, decide_False by tauto. }
  rewrite IH. by destruct b, (Nat.odd n).
Qed.

Lemma presentAfter_subset clicks x : x ∈ presentAfter clicks -> x ∈ clicks.
Proof.
  rewrite presentAfter_odd. intros H.
  destruct (filter (fun y => y = x) clicks) as [|y l] eqn:E; [done|].
  assert (y ∈ filter (fun y => y = x) clicks) as Hy by (rewrite E; by left).
  by apply list_elem_of_filter in Hy as [-> ?].
Qed.

Section Suggestion.
Variable pow : float -> float -> float.

Lemma suggestedDriver_cases clock group present rides :
  match suggestedDriver pow clock group present rides with
  | None => present = [] /\ forall g, group = Some g -> members g = []
  | Some d =>
      if decide (present = []) then
        exists g m, group = Some g /\ m ∈ members g /\ member_id m = d
      else d ∈ present
  end.
Proof.
  unfold suggestedDriver. destruct present as [|x l]; cbn [length Nat.eqb].
  - destruct group as [g|].
    + destruct (nextDriver _ _ _ _ _) as [d|] eqn:E.
      * apply nextDriver_elem in E. rewrite decide_True by done.
        apply list_elem_of_fmap in E as (m & -> & Hm). by exists g, m.
      * apply nextDriver_None in E. split; [done|]. intros g' [= <-].
        by apply fmap_nil_inv in E.
    + by split.
  - destruct (nextDriver _ _ _ _ _) as [d|] eqn:E.
    + rewrite decide_False by done. by apply nextDriver_elem in E.
    + by apply nextDriver_None in E.
Qed.

End Suggestion.

(** * Further properties *)

(** ** UI helpers *)

Section Helpers.
Variable toUpperCase : string -> string.

(** X1. The initials drawn in an avatar are the upper-cased first two of
    the characters that open a word of the name -- a character other
    than a space, standing first or right after a space. Runs of spaces,
    which [split] turns into empty pieces, contribute nothing, and a name
    without such a character gives [toUpperCase] of the empty string. *)
Theorem initials_are_word_starts name :
  initials toUpperCase name = toUpperCase (Str.take 2 (word_starts true name)).
Proof. unfold initials, Str.slice. by destruct (join_char0_split name) as [-> _]. Qed.

End Helpers.

(** X2. The first name greeted on the dashboard is the longest prefix of
    the display name without a space: what follows it is empty or starts
    with a space. A display name that starts with a space, and a missing
    one, give the empty string. *)
Theorem firstName_longest_prefix d :
  Str.has Str.space (firstName (Some d)) = false /\
  (exists rest, d = firstName (Some d) +:+ rest /\
     (rest = EmptyString \/ exists r, rest = String Str.space r)) /\
  firstName (Some (String Str.space d)) = EmptyString /\
  firstName None = EmptyString.
Proof.
  assert (firstName (Some d) = (Str.split_from Str.space d).1) as ->.
  { unfold firstName. rewrite split_from_split. cbn [head].
    by destruct (Str.split_from Str.space d).1. }
  destruct (split_from_first Str.space d) as [H1 H2]. split_and!; [done| |..].
  - destruct H2 as [H|[r H]].
    + exists EmptyString. split; [|by left]. rewrite <- H.
      clear. induction d as [|c d IH]; [done|]. by rewrite append_cons, <- IH.
    + exists (String Str.space r). split; [done|right; by exists r].
  - unfold firstName. by rewrite split_cons_sep.
  - done.
Qed.

(** X3. The route reads back the group a dashboard card links to: for a
    group ID without a slash, the last segment of [`/group/${g.id}`] is the
    ID. With a slash appended to that path the ID read is empty. *)
Theorem GroupRoute_reads_link g :
  Str.has Str.slash (group_id g) = false ->
  GroupRoute_id (group_link g) = group_id g /\
  GroupRoute_id (group_link g +:+ "/") = EmptyString.
Proof.
  intros H. unfold GroupRoute_id, group_link. split.
  - change ("/group/" +:+ group_id g) with ("/group" +:+ String Str.slash (group_id g)).
    rewrite last_split_app, split_no_sep by done. cbn [last].
    by destruct (group_id g).
  - change (("/group/" +:+ group_id g) +:+ "/")
      with (("/group/" +:+ group_id g) +:+ String Str.slash EmptyString).
    by rewrite last_split_app.
Qed.

(** ** The selection of present members *)

(** X4. Whatever buttons are clicked, in whatever order, starting from
    the empty selection: no ID is selected twice, and the selected IDs are
    those clicked an odd number of times. *)
Theorem presentAfter_clicks clicks :
  NoDup (presentAfter clicks) /\
  forall x, x ∈ presentAfter clicks
            <-> Nat.odd (length (filter (fun y => y = x) clicks)) = true.
Proof. split; [apply presentAfter_NoDup|intros x; apply presentAfter_odd]. Qed.

(** X5. Two clicks on the same button do not always restore the
    selection: a member who was selected is taken out and put back last,
    behind everyone else, which changes the list unless the member already
    stood last; a member who was not selected leaves the list as it
    was. *)
Theorem togglePresent_twice prev id :
  togglePresent (togglePresent prev id) id
  = if bool_decide (id ∈ prev) then filter (fun x => x ≠ id) prev ++ [id] else prev.
Proof.
  unfold togglePresent at 2. case_bool_decide as H.
  - unfold togglePresent. rewrite bool_decide_false; [done|].
    rewrite list_elem_of_filter. tauto.
  - unfold togglePresent. rewrite bool_decide_true by (apply elem_of_app; right; by left).
    rewrite filter_app, filter_cons, filter_nil, decide_False by tauto.
    rewrite app_nil_r. clear -H. induction prev as [|y l IH]; [done|].
    rewrite filter_cons, decide_True; [f_equal; apply IH|]; intros ?; apply H; subst;
      [by right|by left].
Qed.

(** ** The suggestion of the group page *)

Section Suggested.
Variable pow : float -> float -> float.

(** X6. The suggestion is [null] only when nobody is selected and the
    group is not loaded or has no member. Otherwise it is a selected
    member when somebody is selected, and the ID of a member of the group
    when nobody is: an empty selection stands for the whole group. *)
Theorem suggestedDriver_among clock group present rides :
  match suggestedDriver pow clock group present rides with
  | None => present = [] /\ forall g, group = Some g -> members g = []
  | Some d =>
      if decide (present = []) then
        exists g m, group = Some g /\ m ∈ members g /\ member_id m = d
      else d ∈ present
  end.
Proof. apply suggestedDriver_cases. Qed.

(** X7. After any run of clicks on the buttons the page draws, the
    suggestion is the ID of one of these buttons; it is [null] only for a
    group without members in which the selection is empty. *)
Theorem suggestion_is_shown clock group clicks rides :
  Forall (fun id => id ∈ map member_id (shownMembers group)) clicks ->
  match suggestedDriver pow clock (Some group) (presentAfter clicks) rides with
  | Some d => d ∈ map member_id (shownMembers group)
  | None => members group = [] /\ presentAfter clicks = []
  end.
Proof.
  intros Hc. pose proof (suggestedDriver_cases pow clock (Some group) (presentAfter clicks) rides) as H.
  destruct (suggestedDriver _ _ _ _ _) as [d|].
  - case_decide as E.
    + destruct H as (g & m & [= <-] & Hm & <-). unfold shownMembers.
      destruct (members group) as [|y l] eqn:Eg; [by apply elem_of_nil in Hm|].
      cbn [length Nat.eqb]. apply list_elem_of_fmap. by exists m.
    + rewrite Forall_forall in Hc. by apply Hc, presentAfter_subset.
  - destruct H as [H1 H2]. split; [by apply H2|done].
Qed.

(** X8. In a group without members the one button drawn is the
    placeholder "owner": an odd number of clicks on it makes "owner" the
    suggested driver, an even number leaves no suggestion, and either way
    the name displayed for the driver is the dash, since no member of the
    group carries that ID. *)
Theorem placeholder_has_no_name clock group rides clicks :
  members group = [] ->
  Forall (fun id => id ∈ map member_id (shownMembers group)) clicks ->
  suggestedDriver pow clock (Some group) (presentAfter clicks) rides
    = (if Nat.odd (length clicks) then Some "owner" else None) /\
  forall d, driverName group d = dash.
Proof.
  intros Hg Hc. split; [|intros d; unfold driverName; by rewrite Hg].
  assert (clicks = replicate (length clicks) "owner") as ->.
  { unfold shownMembers in Hc. rewrite Hg in Hc. cbn in Hc.
    induction Hc as [|id l Hid _ IH]; [done|]. cbn [length replicate]. f_equal; [|done].
    by apply list_elem_of_singleton in Hid. }
  rewrite length_replicate. unfold presentAfter.
  rewrite (presentAfter_same "owner" _ false). cbn [xorb].
  unfold suggestedDriver. rewrite Hg. by destruct (Nat.odd _).
Qed.

End Suggested.

(** X9. In a group whose members have distinct IDs, the text displayed
    for the ID of a member with a non-empty name is that name; for an ID
    no member carries it is the dash. *)
Theorem driverName_of_member group m :
  m ∈ members group -> NoDup (map member_id (members group)) ->
  member_name m <> EmptyString ->
  driverName group (Some (member_id m)) = member_name m /\
  forall d, d ∉ map member_id (members group) -> driverName group (Some d) = dash.
Proof.
  intros Hm Hnd Hn. unfold driverName. split.
  - assert (List.find (fun m' => bool_decide (Some (member_id m') = Some (member_id m)))
              (members group) = Some m) as ->.
    { induction (members group) as [|y l IH]; [by apply elem_of_nil in Hm|].
      cbn [map] in Hnd. apply NoDup_cons in Hnd as [Hy Hnd]. cbn [List.find].
      apply elem_of_cons in Hm as [->|Hm]; [by rewrite bool_decide_true|].
      rewrite bool_decide_false; [by apply IH|].
      intros [= E]. apply Hy. rewrite E. apply list_elem_of_fmap. by exists m. }
    cbn [fmap option_fmap option_map]. by destruct (member_name m).
  - intros d Hd.
    assert (List.find (fun m' => bool_decide (Some (member_id m') = Some d)) (members group)
            = None) as ->; [|done].
    clear -Hd. induction (members group) as [|y l IH]; [done|].
    cbn [List.find]. rewrite bool_decide_false.
    + apply IH. intros H. apply Hd. by right.
    + intros [= E]. apply Hd. rewrite <- E. by left.
Qed.

(** ** Saving a ride *)

Lemma finite_not_nan x : is_finite x = true -> is_nan x = false.
Proof. rewrite is_finite_spec, is_nan_spec. by destruct (Prim2SF x). Qed.

Section Saving.
Variable pow : float -> float -> float.
Variable parseDate : string -> float.

(** X10. "Enregistrer" hands no ride to the store exactly when a field
    is empty, nobody is present, or the date does not parse to a finite
    instant. A ride it does hand over has no id yet, belongs to the group,
    carries the instant the date field parses to and the two places as
    typed, lists the present members as participants, and is driven by the
    first of them -- so by one of its participants; its date is finite,
    hence not NaN. *)
Theorem savedRide_is_usable clock group rides present origin destination day :
  (savedRide pow parseDate clock group rides present origin destination day = None <->
   origin = EmptyString \/ destination = EmptyString \/ day = EmptyString \/
   present = [] \/ is_finite (parseDate day) = false) /\
  (forall ride,
   savedRide pow parseDate clock group rides present origin destination day = Some ride ->
   ride_id ride = None /\
   groupId ride = group_id group /\
   date ride = parseDate day /\
   from ride = origin /\
   to ride = destination /\
   participants ride = present /\
   head present = Some (driverId ride) /\
   driverId ride ∈ participants ride /\
   is_finite (date ride) = true /\ is_nan (date ride) = false).
Proof.
  unfold savedRide, saveDisabled.
  destruct origin as [|c1 s1]; [split; [split; [intros _; by left|done]|done]|].
  destruct destination as [|c2 s2]; [split; [split; [intros _; by right; left|done]|done]|].
  destruct day as [|c3 s3]; [split; [split; [intros _; by right; right; left|done]|done]|].
  destruct present as [|x l];
    [split; [split; [intros _; by right; right; right; left|done]|done]|].
  cbn [Str.is_empty orb length Nat.eqb].
  unfold addRide_driverId. rewrite nextDriver_no_history.
  assert (JS.or_else (Some x) (head (x :: l)) = Some x) as -> by (by destruct x).
  destruct (is_finite (parseDate (String c3 s3))) eqn:F.
  - split.
    + split; [done|]. intros [H|[H|[H|[H|H]]]]; discriminate H.
    + intros ride [= <-]. cbn [ride_id participants driverId groupId date from to head].
      split_and!; [done..|by left|done|by apply finite_not_nan].
  - split; [split; [intros _; by right; right; right; right|done]|done].
Qed.

End Saving.

(** ** The engine *)

Section MoreSelection.
Variable pow : float -> float -> float.

(** X11. The keys of both maps are the present IDs, whatever the history
    holds: the loop over the rides updates entries and never adds one. *)
Theorem tally_keys_are_present now present history :
  dom (counts (tally_of pow now present history)) =@{gset string} list_to_set present /\
  dom (lastDates (tally_of pow now present history)) =@{gset string} list_to_set present.
Proof.
  split; apply set_eq; intros m; rewrite elem_of_dom, elem_of_list_to_set.
  - rewrite tally_counts. case_decide; split; intros Hx; try done;
      first [by eexists|by destruct Hx].
  - rewrite tally_lastDates. case_decide; split; intros Hx; try done;
      first [by eexists|by destruct Hx].
Qed.

(** X12. A ride of a present member whose date does not parse turns the
    member's weighted count and last-drive instant into NaN (given that
    [Math.pow] answers NaN for a NaN exponent); and as [NaN || 0] is [0],
    the member's next ride starts both afresh: with a later ride of the
    member in the history, the two entries are those of the rides after
    the unparsable one alone. *)
Theorem unparsable_date_forgets now present h1 r h2 r' :
  is_nan (pow DECAY nan) = true ->
  driverId r ∈ present -> is_nan (date r) = true ->
  r' ∈ h2 -> driverId r' = driverId r ->
  let m := driverId r in
  (counts (tally_of pow now present (h1 ++ [r])) !! m = Some nan /\
   lastDates (tally_of pow now present (h1 ++ [r])) !! m = Some nan) /\
  (counts (tally_of pow now present (h1 ++ r :: h2)) !! m
     = counts (tally_of pow now present h2) !! m /\
   lastDates (tally_of pow now present (h1 ++ r :: h2)) !! m
     = lastDates (tally_of pow now present h2) !! m).
Proof.
  intros Hpow Hp Hd Hin Hr' m.
  rewrite !tally_counts, !tally_lastDates, !decide_True by done.
  unfold member_count, member_last. rewrite !foldl_app. cbn [foldl].
  rewrite (count_step_nan_date _ _ _ _ _ Hpow eq_refl Hd), (last_step_nan_date _ _ _ eq_refl Hd).
  split; [done|]. split; f_equal.
  - by eapply fold_count_from_nan.
  - by eapply fold_last_from_nan.
Qed.

(** X13. With usable rides, the last-drive instant of a present member
    is the greatest of [0] and the dates of the member's rides: it is [0]
    or the date of one of these rides, and it is at or above [0] and each
    of these dates. Rides dated before 1970 thus leave it at [0]. *)
Theorem last_drive_is_latest now present history m :
  well_formed pow now present history = true -> m ∈ present ->
  let l := last_of (tally_of pow now present history) m in
  (l = 0%float \/ exists r, r ∈ history /\ driverId r = m /\ l = date r) /\
  (0 <=? l)%float = true /\
  forall r, r ∈ history -> driverId r = m -> (date r <=? l)%float = true.
Proof.
  intros Hw Hm l.
  assert (l = member_last m history) as El.
  { unfold l, last_of. by rewrite tally_lastDates, decide_True. }
  assert (unsigned l = true) as U.
  { rewrite El. by eapply fold_last_unsigned. }
  split_and!.
  - rewrite El. by eapply fold_last_attained.
  - rewrite leb_ord by (by rewrite ?unsigned_not_nan). apply Z.leb_le.
    change (ord 0) with 0%Z. by apply unsigned_ord.
  - intros r Hr <-. by apply last_of_covers.
Qed.

(** X14. When the rides of present members are usable and dated after
    the epoch, and some present member has no ride in the history, the
    driver returned is the first member of the present list without a
    ride: whoever has never driven goes before everyone who has. *)
Theorem never_driven_goes_first clock present history nowISO m :
  let now := reference_time clock nowISO in
  well_formed pow now present history = true ->
  (forall r, r ∈ history -> driverId r ∈ present -> (0 <? date r)%float = true) ->
  m ∈ present -> (forall r, r ∈ history -> driverId r <> m) ->
  exists i d,
    nextDriver pow clock present history nowISO = Some d /\
    present !! i = Some d /\
    (forall r, r ∈ history -> driverId r <> d) /\
    forall j m', (j < i)%nat -> present !! j = Some m' ->
      exists r, r ∈ history /\ driverId r = m'.
Proof.
  intros now Hw Hpos Hm Hnone.
  assert (present <> []) as Hne by (intros ->; by apply elem_of_nil in Hm).
  pose proof (tally_of_unsigned pow _ _ _ Hw) as Hst.
  set (st := tally_of pow now present history) in *.
  pose proof (fun a b => compareFn_key st a b Hst) as Hkey.
  destruct (head_sort_least _ (zkey st) Hkey present Hne) as (i & d & Hh & Hi & Hmin).
  assert (forall a, (forall r, r ∈ history -> driverId r <> a) -> zkey st a = (0, 0)%Z) as Hzero.
  { intros a Ha. unfold zkey, st.
    by destruct (never_driven_zero pow now present history a Ha) as [-> ->]. }
  assert (forall a, (0 <= (zkey st a).1 /\ 0 <= (zkey st a).2)%Z) as Hge.
  { intros a. destruct (Hst a). split; by apply unsigned_ord. }
  assert (zkey st d = (0, 0)%Z) as Hd.
  { apply list_elem_of_lookup in Hm as [jm Hjm].
    destruct (Hmin jm m Hjm) as [Hlt|[E _]]; [|by rewrite E, Hzero].
    rewrite (Hzero m Hnone) in Hlt. destruct (Hge d) as [G1 G2].
    destruct (zkey st d) as [c l]. unfold lex_ltb in Hlt. cbn [fst snd] in *.
    destruct (Z.ltb_spec c 0), (Z.eqb_spec c 0), (Z.ltb_spec l 0); simpl in Hlt; try done; lia. }
  assert (forall a, a ∈ present -> zkey st a = (0, 0)%Z ->
            forall r, r ∈ history -> driverId r <> a) as Hfree.
  { intros a Ha Hk r Hr <-.
    pose proof (last_of_covers pow now present history r Hw Hr Ha) as Hc.
    pose proof (Hpos r Hr Ha) as Hp.
    destruct (ltb_not_nan _ _ Hp) as [_ Nd].
    destruct (leb_not_nan _ _ Hc) as [_ Nl].
    rewrite leb_ord in Hc by done. rewrite ltb_ord in Hp by done.
    apply Z.leb_le in Hc. apply Z.ltb_lt in Hp. change (ord 0) with 0%Z in Hp.
    fold st in Hc. unfold zkey in Hk. injection Hk as _ Hk. lia. }
  exists i, d. rewrite nextDriver_nonempty by done. fold now st. split_and!; [done..| |].
  - apply Hfree; [by eapply list_elem_of_lookup_2|done].
  - intros j m' Hji Hj.
    destruct (decide (Exists (fun r => driverId r = m') history)) as [He|He].
    + apply Exists_exists in He as (r & Hr & E). by exists r.
    + exfalso. assert (zkey st m' = (0, 0)%Z) as Hk'.
      { apply Hzero. intros r Hr E. apply He, Exists_exists. by exists r. }
      destruct (Hmin j m' Hj) as [Hlt|[_ Hle]]; [|lia].
      by rewrite Hd, Hk' in Hlt.
Qed.

(** X15. The order of the present list matters for ties only: when no
    two entries of the list rank equal (in weighted count and last
    drive), every reordering of the list gives the same driver. *)
Theorem present_order_only_breaks_ties clock present present' history nowISO :
  let now := reference_time clock nowISO in
  well_formed pow now present history = true ->
  present ≡ₚ present' ->
  ForallOrdPairs (fun a b => ranks_equal (tally_of pow now present history) a b = false) present ->
  nextDriver pow clock present history nowISO = nextDriver pow clock present' history nowISO.
Proof.
  intros now Hw Hp Hd.
  destruct present as [|x l] eqn:El.
  { apply Permutation_nil in Hp. by subst. }
  rewrite <- El in *. assert (present <> []) as Hne by (by subst).
  assert (present' <> []) as Hne'.
  { intros ->. apply Permutation_sym, Permutation_nil in Hp. done. }
  rewrite !nextDriver_nonempty by done. fold now.
  assert (tally_of pow now present' history = tally_of pow now present history) as ->.
  { apply tally_ext; [|done]. intros a. by rewrite Hp. }
  pose proof (tally_of_unsigned pow _ _ _ Hw) as Hst.
  set (st := tally_of pow now present history) in *.
  pose proof (fun a b => compareFn_key st a b Hst) as Hkey.
  destruct (head_sort_least _ (zkey st) Hkey present Hne) as (i & m & -> & Hi & Hmin).
  destruct (head_sort_least _ (zkey st) Hkey present' Hne') as (i' & m' & -> & Hi' & Hmin').
  f_equal.
  assert (m ∈ present) as Hm by (by eapply list_elem_of_lookup_2).
  assert (m' ∈ present) as Hm' by (rewrite Hp; by eapply list_elem_of_lookup_2).
  assert (zkey st m = zkey st m') as Hk.
  { apply list_elem_of_lookup in Hm' as [j Hj].
    assert (m ∈ present') as [j' Hj']%list_elem_of_lookup by (by rewrite <- Hp).
    destruct (Hmin j m' Hj) as [H1|[H1 _]]; [|done].
    destruct (Hmin' j' m Hj') as [H2|[H2 _]]; [|done].
    pose proof (lex_asym _ _ H1). congruence. }
  destruct (ForallOrdPairs_In Hd m m') as [E|[E|E]];
    [by apply list_elem_of_In..|done| |].
  - rewrite ranks_equal_key, bool_decide_eq_false in E by done. by destruct E.
  - rewrite ranks_equal_key, bool_decide_eq_false in E by done. by destruct E.
Qed.

End MoreSelection.

(** ** Rounded sums

    Binary64 addition of numbers that are not negative, as rounding of
    the exact integer sum. *)

Module Rounding_facts.
Import Rounding.
Local Open Scope Z_scope.

Lemma grid_nonneg v : 0 <= grid v.
Proof. unfold grid. lia. Qed.

Lemma round_to_bounds n v :
  0 <= n -> v / 2 ^ n * 2 ^ n <= round_to n v <= (v / 2 ^ n + 1) * 2 ^ n.
Proof.
  intros Hn. pose proof (pow2_pos n Hn). unfold round_to.
  destruct (round_up n v); cbn [Z.b2z]; nia.
Qed.

Lemma round_to_mono n u v : 0 <= n -> u <= v -> round_to n u <= round_to n v.
Proof.
  intros Hn Huv. pose proof (pow2_pos n Hn) as HP.
  pose proof (Z.div_le_mono u v (2 ^ n) HP Huv) as Hq.
  destruct (Z.eq_dec (u / 2 ^ n) (v / 2 ^ n)) as [E|E].
  - unfold round_to, round_up. rewrite E.
    pose proof (Z.div_mod u (2 ^ n) ltac:(lia)) as Du.
    pose proof (Z.div_mod v (2 ^ n) ltac:(lia)) as Dv.
    rewrite E in Du.
    assert (u mod 2 ^ n <= v mod 2 ^ n) as Hr by lia.
    apply Z.mul_le_mono_nonneg_r; [lia|]. apply Z.add_le_mono_l.
    destruct (Z.ltb_spec (2 ^ n) (2 * (u mod 2 ^ n))), (Z.eqb_spec (2 ^ n) (2 * (u mod 2 ^ n))),
      (Z.ltb_spec (2 ^ n) (2 * (v mod 2 ^ n))), (Z.eqb_spec (2 ^ n) (2 * (v mod 2 ^ n)));
      destruct (Z.odd (v / 2 ^ n)); cbn; lia.
  - destruct (round_to_bounds n u Hn) as [_ Hu]. destruct (round_to_bounds n v Hn) as [Hv _].
    assert ((u / 2 ^ n + 1) * 2 ^ n <= v / 2 ^ n * 2 ^ n); [|lia].
    apply Z.mul_le_mono_nonneg_r; lia.
Qed.

Lemma round_to_zero n : 0 <= n -> round_to n 0 = 0.
Proof.
  intros Hn. pose proof (pow2_pos n Hn). unfold round_to, round_up.
  rewrite Z.mod_0_l, Z.div_0_l by lia.
  destruct (Z.ltb_spec (2 ^ n) (2 * 0)), (Z.eqb_spec (2 ^ n) (2 * 0)); cbn; lia.
Qed.

(** Across binades: below a power of two the rounding does not pass it,
    from it on the rounding does not fall under it. *)
Lemma round_to_below u k :
  0 <= u < 2 ^ k -> grid u <= k -> round_to (grid u) u <= 2 ^ k.
Proof.
  intros [Hu Huk] Hg. pose proof (grid_nonneg u) as Hn.
  destruct (round_to_bounds (grid u) u Hn) as [_ H]. etrans; [exact H|].
  pose proof (pow2_pos (grid u) Hn) as HP.
  assert (2 ^ k = 2 ^ (k - grid u) * 2 ^ grid u) as E.
  { rewrite <- Z.pow_add_r by lia. f_equal. lia. }
  rewrite E. apply Z.mul_le_mono_nonneg_r; [lia|].
  assert (u / 2 ^ grid u < 2 ^ (k - grid u)); [|lia].
  apply Z.div_lt_upper_bound; [lia|]. rewrite Z.mul_comm. lia.
Qed.

Lemma round_to_above v :
  0 < v -> 0 < grid v -> 2 ^ Z.log2 v <= round_to (grid v) v.
Proof.
  intros Hv Hg. destruct (Z.log2_spec v Hv) as [Hl _].
  pose proof (Z.log2_nonneg v) as HL.
  assert (grid v = Z.log2 v + 1 - prec) as En by (unfold grid in *; lia).
  assert (0 < prec) as Hp by reflexivity.
  destruct (round_to_bounds (grid v) v ltac:(lia)) as [H _]. etrans; [|exact H].
  pose proof (pow2_pos (grid v) ltac:(lia)) as HP.
  assert (2 ^ Z.log2 v = 2 ^ (prec - 1) * 2 ^ grid v) as E.
  { rewrite <- Z.pow_add_r by lia. f_equal. lia. }
  rewrite E. apply Z.mul_le_mono_nonneg_r; [lia|].
  apply Z.div_le_lower_bound; [lia|]. rewrite Z.mul_comm, <- E. exact Hl.
Qed.

Lemma grid_mono u v : 0 <= u <= v -> grid u <= grid v.
Proof.
  intros [Hu Huv]. unfold grid. pose proof (Z.log2_le_mono u v Huv). lia.
Qed.

Lemma rne_mono u v : 0 <= u <= v -> rne u <= rne v.
Proof.
  intros [Hu Huv]. unfold rne. apply Z.min_le_compat_r.
  pose proof (grid_mono u v ltac:(lia)) as Hg.
  destruct (Z.eq_dec (grid u) (grid v)) as [E|E].
  - rewrite E. apply round_to_mono; [apply grid_nonneg|done].
  - assert (grid u < grid v) as Hlt by lia.
    assert (0 < v) as Hv.
    { destruct (Z.eq_dec v 0) as [->|]; [|lia]. assert (u = 0) as -> by lia. lia. }
    pose proof (grid_nonneg u) as Hn.
    assert (Z.log2 u < Z.log2 v) as Hl by (unfold grid in *; lia).
    etrans; [|apply round_to_above; lia].
    apply round_to_below.
    + split; [done|]. destruct (Z.eq_dec u 0) as [->|Hu0].
      * apply Z.pow_pos_nonneg; [lia|apply Z.log2_nonneg].
      * destruct (Z.log2_spec u ltac:(lia)) as [_ H]. eapply Z.lt_le_trans; [exact H|].
        apply Z.pow_le_mono_r; lia.
    + pose proof (Z.log2_nonneg u). assert (0 < prec) by reflexivity. unfold grid in *. lia.
Qed.

(** A number already on its grid is left alone, short of [cap]. *)
Lemma rne_on_grid m v : v = m * 2 ^ grid v -> rne v = Z.min v cap.
Proof.
  intros E. pose proof (grid_nonneg v) as Hn. pose proof (pow2_pos _ Hn) as HP.
  unfold rne, round_to, round_up. f_equal.
  assert (v mod 2 ^ grid v = 0) as -> by (rewrite E at 1; apply Z.mod_mul; lia).
  assert (v / 2 ^ grid v = m) as -> by (rewrite E at 1; apply Z.div_mul; lia).
  destruct (Z.ltb_spec (2 ^ grid v) (2 * 0)), (Z.eqb_spec (2 ^ grid v) (2 * 0)); cbn; lia.
Qed.

Lemma log2_digits M : Z.log2 (Z.pos M) = Z.pos (digits2_pos M) - 1.
Proof.
  apply Z.log2_unique; [lia|]. split; [apply digits_lower|].
  replace (Z.succ (Z.pos (digits2_pos M) - 1)) with (Z.pos (digits2_pos M)) by lia.
  apply digits_upper.
Qed.

Lemma grid_scaled M a :
  0 <= a -> grid (Z.pos M * 2 ^ a) = Z.max (Z.pos (digits2_pos M) + a - prec) 0.
Proof.
  intros Ha. unfold grid. rewrite Z.log2_mul_pow2, log2_digits by lia. lia.
Qed.

Lemma rne_zero : rne 0 = 0.
Proof. reflexivity. Qed.

Lemma rne_cap : rne cap = cap.
Proof. vm_compute. reflexivity. Qed.

Lemma rne_le_cap v : rne v <= cap.
Proof. unfold rne. lia. Qed.

Lemma rne_ge_cap v : cap <= v -> rne v = cap.
Proof.
  intros H. pose proof (rne_le_cap v).
  assert (0 <= cap) by (by vm_compute).
  pose proof (rne_mono cap v ltac:(lia)) as Hm. rewrite rne_cap in Hm. lia.
Qed.

(** Scaling by a power of two moves the grid along. *)
Lemma round_to_scale n a v :
  0 <= n -> 0 <= a -> round_to (n + a) (v * 2 ^ a) = round_to n v * 2 ^ a.
Proof.
  intros Hn Ha. pose proof (pow2_pos n Hn) as HPn. pose proof (pow2_pos a Ha) as HPa.
  unfold round_to, round_up. rewrite Z.pow_add_r by lia.
  rewrite Z.mul_mod_distr_r, Z.div_mul_cancel_r by lia.
  assert ((2 ^ n * 2 ^ a <? 2 * (v mod 2 ^ n * 2 ^ a)) = (2 ^ n <? 2 * (v mod 2 ^ n))) as ->.
  { destruct (Z.ltb_spec (2 ^ n) (2 * (v mod 2 ^ n))), (Z.ltb_spec (2 ^ n * 2 ^ a) (2 * (v mod 2 ^ n * 2 ^ a)));
      try done; nia. }
  assert ((2 ^ n * 2 ^ a =? 2 * (v mod 2 ^ n * 2 ^ a)) = (2 ^ n =? 2 * (v mod 2 ^ n))) as ->.
  { destruct (Z.eqb_spec (2 ^ n) (2 * (v mod 2 ^ n))), (Z.eqb_spec (2 ^ n * 2 ^ a) (2 * (v mod 2 ^ n * 2 ^ a)));
      try done; nia. }
  lia.
Qed.

Lemma mod_pow2_split v n :
  0 < n ->
  v mod 2 ^ n = v mod 2 ^ (n - 1) + 2 ^ (n - 1) * Z.b2z (Z.testbit v (n - 1)).
Proof.
  intros Hn. rewrite Z.testbit_spec' by lia.
  assert (2 ^ n = 2 ^ (n - 1) * 2) as ->.
  { replace n with (Z.succ (n - 1)) at 1 by lia. rewrite Z.pow_succ_r by lia. lia. }
  pose proof (pow2_pos (n - 1) ltac:(lia)).
  rewrite Z.rem_mul_r by lia. done.
Qed.

(** What [shr_fexp] and [round_nearest_even] make of a mantissa that is
    too long by [n] bits. *)
Lemma shift_then_round M (n : Z) e :
  0 <= n ->
  let '(mrs, e') := shr (shr_record_of_loc (Z.pos M) loc_Exact) e n in
  e' = e + n /\
  round_nearest_even (shr_m mrs) (loc_of_shr_record mrs) * 2 ^ n = round_to n (Z.pos M).
Proof.
  intros Hn. destruct n as [|p|p]; [| |lia].
  - cbn [shr shr_record_of_loc loc_of_shr_record shr_m shr_r shr_s round_nearest_even].
    split; [lia|]. unfold round_to, round_up.
    change (2 ^ 0) with 1. rewrite Z.mod_1_r, Z.div_1_r.
    change (1 <? 2 * 0) with false. change (1 =? 2 * 0) with false.
    cbn [orb andb Z.b2z]. lia.
  - cbn [shr]. split; [done|]. rewrite iter_pos_nat.
    destruct (Pos.to_nat p) as [|k] eqn:Hk; [lia|].
    rewrite iter_shr_1_spec by (cbn; lia).
    cbn [shr_record_of_loc shr_m shr_r shr_s orb].
    replace (Z.of_nat (S k)) with (Z.pos p) by lia.
    replace (Z.of_nat k) with (Z.pos p - 1) by lia.
    unfold round_to, round_up. f_equal.
    rewrite (mod_pow2_split (Z.pos M) (Z.pos p)) by lia.
    pose proof (pow2_pos (Z.pos p - 1) ltac:(lia)) as HP.
    assert (2 ^ Z.pos p = 2 * 2 ^ (Z.pos p - 1)) as ->.
    { rewrite <- Z.pow_succ_r by lia. f_equal. lia. }
    pose proof (Z.mod_pos_bound (Z.pos M) (2 ^ (Z.pos p - 1)) HP) as Hlow.
    set (low := Z.pos M mod 2 ^ (Z.pos p - 1)) in *.
    set (q := Z.pos M / (2 * 2 ^ (Z.pos p - 1))).
    assert (IntDef.Z.even q = negb (Z.odd q)) as He by (symmetry; apply Z.negb_odd).
    destruct (Z.testbit (Z.pos M) (Z.pos p - 1)); cbn [Z.b2z];
      destruct (Z.eqb_spec low 0) as [E0|E0]; cbn [negb loc_of_shr_record round_nearest_even];
      rewrite ?He;
      destruct (Z.ltb_spec (2 * 2 ^ (Z.pos p - 1)) (2 * (low + 2 ^ (Z.pos p - 1) * 1)));
      destruct (Z.eqb_spec (2 * 2 ^ (Z.pos p - 1)) (2 * (low + 2 ^ (Z.pos p - 1) * 1)));
      destruct (Z.ltb_spec (2 * 2 ^ (Z.pos p - 1)) (2 * (low + 2 ^ (Z.pos p - 1) * 0)));
      destruct (Z.eqb_spec (2 * 2 ^ (Z.pos p - 1)) (2 * (low + 2 ^ (Z.pos p - 1) * 0)));
      try lia; destruct (Z.odd q); cbn [negb orb andb Z.b2z]; lia.
Qed.

Lemma cap_split : cap = 2 ^ prec * 2 ^ (emax - prec - emin).
Proof. reflexivity. Qed.

(** The second half of [binary_round_aux]: a rounded mantissa, canonical
    or just overflown to [2^prec], is packed, or given up for infinity. *)
Lemma finish_ord m E :
  emin <= E ->
  fexp prec emax (Z.pos (digits2_pos m) + E) = E \/ Z.pos m = 2 ^ prec ->
  (emin < E -> 2 ^ (prec - 1) <= Z.pos m) ->
  ord_sf (let '(mrs, e) := shr_fexp prec emax (Z.pos m) E loc_Exact in
          match shr_m mrs with
          | 0 => S754_zero false
          | Z.pos m' =>
              if e <=? emax - prec then S754_finite false m' e else S754_infinity false
          | Z.neg _ => S754_nan
          end) = Z.min (Z.pos m * 2 ^ (E - emin)) cap.
Proof.
  intros HE Hc Hn. assert (0 < prec) as Hp by reflexivity.
  assert (emin < emax - prec) as Hem by reflexivity.
  pose proof (pow2_pos (E - emin) ltac:(lia)) as HP.
  destruct Hc as [Hc|Hc].
  - unfold shr_fexp. cbn [Zdigits2]. rewrite Hc, Z.sub_diag.
    cbn [shr shr_record_of_loc shr_m].
    pose proof (digits_upper m) as Hu.
    assert (Z.pos m < 2 ^ prec) as Hm.
    { eapply Z.lt_le_trans; [exact Hu|]. apply Z.pow_le_mono_r; [lia|].
      unfold fexp in Hc. lia. }
    destruct (Z.leb_spec E (emax - prec)) as [Hle|Hgt]; cbn [ord_sf cond_Zopp].
    + rewrite Z.min_l; [done|]. rewrite cap_split.
      assert (2 ^ (E - emin) <= 2 ^ (emax - prec - emin)) by (apply Z.pow_le_mono_r; lia).
      pose proof (pow2_pos prec ltac:(lia)). nia.
    + rewrite Z.min_r; [done|]. specialize (Hn ltac:(lia)).
      assert (cap = 2 ^ (prec - 1) * 2 ^ (emax - prec + 1 - emin)) as -> by reflexivity.
      assert (2 ^ (emax - prec + 1 - emin) <= 2 ^ (E - emin)) by (apply Z.pow_le_mono_r; lia).
      pose proof (pow2_pos (prec - 1) ltac:(lia)). nia.
  - assert (m = 9007199254740992%positive) as -> by (change (2 ^ prec) with 9007199254740992 in Hc; lia).
    unfold shr_fexp, fexp. cbn [Zdigits2].
    change (Z.pos (digits2_pos 9007199254740992)) with (prec + 1).
    replace (Z.max (prec + 1 + E - prec) emin - E) with 1 by lia.
    cbn [shr SpecFloat.iter_pos shr_record_of_loc shr_1 shr_m].
    change (Z.pos 9007199254740992) with (2 * 2 ^ (prec - 1)).
    assert (2 ^ (E + 1 - emin) = 2 * 2 ^ (E - emin)) as Hs.
    { rewrite <- Z.pow_succ_r by lia. f_equal. lia. }
    destruct (Z.leb_spec (E + 1) (emax - prec)) as [Hle|Hgt]; cbn [ord_sf cond_Zopp].
    + change (Z.pos 4503599627370496) with (2 ^ (prec - 1)). rewrite Hs.
      rewrite Z.min_l; [lia|]. rewrite cap_split.
      assert (2 * 2 ^ (E - emin) <= 2 ^ (emax - prec - emin)).
      { rewrite <- Hs. apply Z.pow_le_mono_r; lia. }
      change (2 ^ prec) with (2 * 2 ^ (prec - 1)).
      pose proof (pow2_pos (prec - 1) ltac:(lia)). nia.
    + rewrite Z.min_r; [done|].
      assert (cap = 2 * 2 ^ (prec - 1) * 2 ^ (emax - prec - emin)) as -> by reflexivity.
      assert (2 ^ (emax - prec - emin) <= 2 ^ (E - emin)) by (apply Z.pow_le_mono_r; lia).
      pose proof (pow2_pos (prec - 1) ltac:(lia)). nia.
Qed.

(** [binary_round_aux] on an exact positive mantissa whose exponent is
    not above the target: the value rounded to nearest, ties to even. *)
Lemma binary_round_aux_ord M e :
  emin <= e <= fexp prec emax (Z.pos (digits2_pos M) + e) ->
  ord_sf (binary_round_aux prec emax false (Z.pos M) e loc_Exact)
  = rne (Z.pos M * 2 ^ (e - emin)).
Proof.
  intros [He HE]. assert (0 < prec) as Hp by reflexivity.
  pose proof (digits_lower M) as Hl. pose proof (digits_upper M) as Hu.
  set (d := Z.pos (digits2_pos M)) in *.
  assert (fexp prec emax (d + e) = Z.max (d + e - prec) emin) as HfE by reflexivity.
  set (E := fexp prec emax (d + e)) in *.
  set (n := E - e). assert (0 <= n) as Hn by (unfold n; lia).
  pose proof (pow2_pos n Hn) as HPn.
  (* the first shift and the rounding *)
  unfold binary_round_aux. unfold shr_fexp at 1. cbn [Zdigits2]. fold d E n.
  pose proof (shift_then_round M n e Hn) as H1.
  destruct (shr (shr_record_of_loc (Z.pos M) loc_Exact) e n) as [mrs e'].
  destruct H1 as [-> Hr]. replace (e + n) with E by (unfold n; lia).
  set (m2 := round_nearest_even (shr_m mrs) (loc_of_shr_record mrs)) in *.
  destruct (round_to_bounds n (Z.pos M) Hn) as [Hlo Hhi]. rewrite <- Hr in Hlo, Hhi.
  set (q := Z.pos M / 2 ^ n) in *.
  assert (q <= m2 <= q + 1) as Hm2 by nia.
  assert (n = 0 /\ m2 = Z.pos M \/ 0 < n /\ n = d - prec /\ 2 ^ (prec - 1) <= q < 2 ^ prec)
    as Hcase.
  { destruct (Z.eq_dec n 0) as [E0|E0]; [left|right].
    - split; [done|]. rewrite E0 in Hr. unfold round_to, round_up in Hr.
      change (2 ^ 0) with 1 in Hr. rewrite Z.mod_1_r, Z.div_1_r in Hr.
      change (1 <? 2 * 0) with false in Hr. change (1 =? 2 * 0) with false in Hr.
      cbn [orb andb Z.b2z] in Hr. lia.
    - assert (n = d - prec) as En by (unfold n; lia).
      split; [lia|]. split; [done|]. unfold q. split.
      + apply Z.div_le_lower_bound; [lia|]. rewrite <- Z.pow_add_r by lia.
        replace (n + (prec - 1)) with (d - 1) by lia. done.
      + apply Z.div_lt_upper_bound; [lia|]. rewrite <- Z.pow_add_r by lia.
        replace (n + prec) with d by lia. done. }
  assert (0 < m2) as Hpos.
  { destruct Hcase as [[_ ->]|(_ & _ & Hq & _)]; [lia|].
    pose proof (pow2_pos (prec - 1) ltac:(lia)). lia. }
  destruct m2 as [|m2'|m2'] eqn:Em2; [lia| |lia].
  (* the second shift, and the result *)
  rewrite finish_ord.
  - unfold rne. f_equal.
    rewrite grid_scaled by lia. fold d.
    replace (Z.max (d + (e - emin) - prec) 0) with (n + (e - emin)) by (unfold n; lia).
    rewrite round_to_scale by lia. rewrite <- Hr.
    replace (E - emin) with (n + (e - emin)) by (unfold n; lia).
    rewrite Z.pow_add_r by lia. lia.
  - lia.
  - destruct Hcase as [[E0 EM]|(Hn0 & En & Hq1 & Hq2)].
    + left. injection EM as ->. fold d. unfold n in E0. replace E with e at 1 by lia. done.
    + destruct (Z.eq_dec (Z.pos m2') (2 ^ prec)) as [?|Hne]; [by right|left].
      rewrite (digits_unique m2' prec) by lia. unfold fexp. lia.
  - intros HEm. destruct Hcase as [[E0 EM]|(Hn0 & En & Hq1 & Hq2)]; [|lia].
    injection EM as ->. assert (d = prec) as Ed by (unfold n in E0; lia).
    rewrite Ed in Hl. done.
Qed.

Lemma digits_shift M k : 0 <= k ->
  forall M', Z.pos M' = Z.pos M * 2 ^ k ->
  Z.pos (digits2_pos M') = Z.pos (digits2_pos M) + k.
Proof.
  intros Hk M' E. apply digits_unique. rewrite E.
  pose proof (digits_lower M) as Hl. pose proof (digits_upper M) as Hu.
  pose proof (pow2_pos k Hk) as HP.
  assert (0 < Z.pos (digits2_pos M)) by lia.
  replace (Z.pos (digits2_pos M) + k - 1) with (Z.pos (digits2_pos M) - 1 + k) by lia.
  rewrite !Z.pow_add_r by lia. nia.
Qed.

(** [binary_round] on a positive mantissa at an exponent not under
    [emin]. *)
Lemma binary_round_ord M e :
  emin <= e ->
  ord_sf (binary_round prec emax false M e) = rne (Z.pos M * 2 ^ (e - emin)).
Proof.
  intros He. unfold binary_round.
  set (d := Z.pos (digits2_pos M)).
  assert (fexp prec emax (d + e) = Z.max (d + e - prec) emin) as HfE by reflexivity.
  set (E := fexp prec emax (d + e)) in *.
  destruct (Z.le_gt_cases e E) as [Hle|Hgt].
  - assert (shl_align M e E = (M, e)) as ->.
    { unfold shl_align. by destruct (E - e) eqn:D; [..|lia]. }
    apply binary_round_aux_ord. fold d E. lia.
  - pose proof (shl_align_val M e E ltac:(lia)) as Hv.
    assert (snd (shl_align M e E) = E) as He'.
    { unfold shl_align. by destruct (E - e) eqn:D; [lia|lia|]. }
    destruct (shl_align M e E) as [M' e']. cbn [fst snd] in *. subst e'.
    assert (Z.pos M' = Z.pos M * 2 ^ (e - E)) as EM.
    { pose proof (pow2_pos (E - emin) ltac:(lia)) as HP.
      assert (2 ^ (e - emin) = 2 ^ (e - E) * 2 ^ (E - emin)) as Hs.
      { rewrite <- Z.pow_add_r by lia. f_equal. lia. }
      rewrite Hs in Hv. nia. }
    rewrite binary_round_aux_ord; [by rewrite Hv|].
    rewrite (digits_shift M (e - E) ltac:(lia) M' EM). fold d.
    replace (d + (e - E) + E) with (d + e) by lia. fold E. lia.
Qed.

(** Addition of numbers that are not negative. *)
Lemma rne_ord_sf f :
  sf_valid f -> sf_unsigned f = true -> rne (ord_sf f) = ord_sf f.
Proof.
  intros V U. destruct f as [[]|[]| |[] m e]; try discriminate; cbn [ord_sf cond_Zopp].
  - apply rne_zero.
  - apply rne_cap.
  - unfold sf_valid in V. cbn in V.
    pose proof (mag_bounds m e V) as [_ Hb].
    apply andb_true_iff in V as [Hc _]. apply Z.eqb_eq in Hc.
    pose proof (bounded_range m e) as Hr.
    assert (emin <= e) as He by (unfold canonical_mantissa, fexp in Hc; lia).
    rewrite (rne_on_grid (Z.pos m)).
    + fold cap in Hb. lia.
    + rewrite grid_scaled by lia. unfold canonical_mantissa, fexp in Hc.
      do 2 f_equal. lia.
Qed.

Lemma SFadd_ord x y :
  sf_valid x -> sf_valid y -> sf_unsigned x = true ->
  SFleb (S754_zero false) y = true ->
  ord_sf (SFadd prec emax x y) = rne (ord_sf x + ord_sf y).
Proof.
  intros Hx Hy Ux Ly.
  assert (0 <= cap) as Hcap by (by vm_compute).
  destruct x as [[]|[]| |[] mx ex], y as [[]|[]| |[] my ey]; try discriminate;
    cbn [SFadd ord_sf cond_Zopp]; rewrite ?Z.add_0_l, ?Z.add_0_r;
    try (symmetry; apply rne_zero); try (symmetry; apply rne_cap);
    try (symmetry; by apply (rne_ord_sf (S754_finite false _ _))).
  - symmetry. apply rne_ge_cap. fold cap.
    pose proof (mag_bounds my ey Hy). lia.
  - symmetry. apply rne_ge_cap. fold cap.
    pose proof (mag_bounds mx ex Hx). lia.
  - unfold sf_valid in Hx, Hy. cbn in Hx, Hy.
    destruct (aligned_ord false mx ex false my ey Hx Hy) as (He & Ex & Ey).
    cbn [ord_sf cond_Zopp] in Ex, Ey. rewrite <- Ex, <- Ey, <- Z.mul_add_distr_r.
    set (ez := Z.min ex ey) in *.
    change (Z.pos (shl_align mx ex ez).1 + Z.pos (shl_align my ey ez).1)
      with (Z.pos ((shl_align mx ex ez).1 + (shl_align my ey ez).1)).
    cbn [binary_normalize]. by apply binary_round_ord.
Qed.

(** On primitive floats. *)
Lemma add_ord x w :
  unsigned x = true -> (0 <=? w)%float = true -> ord (x + w) = rne (ord x + ord w).
Proof.
  intros Ux Lw. unfold ord. rewrite add_spec.
  rewrite FloatAxioms.leb_spec in Lw. change (Prim2SF 0) with (S754_zero false) in Lw.
  apply SFadd_ord; try apply Prim2SF_valid; assumption.
Qed.

Lemma ord_nonneg_of_leb w : (0 <=? w)%float = true -> 0 <= ord w.
Proof.
  intros H. destruct (leb_not_nan _ _ H) as [_ N].
  rewrite leb_ord in H by done. by apply Z.leb_le in H.
Qed.

(** Adding a weight never lowers a count, and keeps the order of two
    counts. *)
Lemma add_weight_ge x w :
  unsigned x = true -> (0 <=? w)%float = true -> ord x <= ord (x + w).
Proof.
  intros Ux Lw. rewrite add_ord by done.
  rewrite <- (rne_ord_sf (Prim2SF x)) at 1; [|apply Prim2SF_valid|done].
  apply rne_mono. pose proof (unsigned_ord x Ux). pose proof (ord_nonneg_of_leb w Lw).
  unfold ord in *. lia.
Qed.

Lemma add_weight_mono x y w :
  unsigned x = true -> unsigned y = true -> (0 <=? w)%float = true ->
  ord x <= ord y -> ord (x + w) <= ord (y + w).
Proof.
  intros Ux Uy Lw Hxy. rewrite !add_ord by done.
  apply rne_mono. pose proof (unsigned_ord x Ux). pose proof (ord_nonneg_of_leb w Lw). lia.
Qed.

End Rounding_facts.

Import Rounding_facts.

(** ** A ride more *)

Section OneMoreRide.
Variable pow : float -> float -> float.
Local Open Scope Z_scope.

Lemma well_formed_insert now present h1 r h2 :
  well_formed pow now present (h1 ++ r :: h2) = true ->
  well_formed pow now present (h1 ++ h2) = true /\
  (driverId r ∈ present ->
   is_nan (date r) = false /\ (0 <=? weight pow now (date r))%float = true).
Proof.
  rewrite !well_formed_app. intros [H1 H2]%andb_true_iff.
  apply well_formed_cons in H2 as [Hr H2]. by rewrite H1, H2.
Qed.

Lemma count_step_mono now present m r c c' :
  m ∈ present -> well_formed pow now present [r] = true ->
  unsigned c = true -> unsigned c' = true -> ord c <= ord c' ->
  unsigned (count_step pow now m c r) = true /\
  unsigned (count_step pow now m c' r) = true /\
  ord c <= ord (count_step pow now m c r) /\
  ord (count_step pow now m c r) <= ord (count_step pow now m c' r).
Proof.
  intros Hm Hw U U' Hc. apply well_formed_cons in Hw as [Hr _].
  unfold count_step. case_decide as E; [|done]. subst m.
  destruct (Hr Hm) as [_ Hle]. rewrite !or_zero_unsigned, mul_one_l by done.
  split_and!; [by apply add_unsigned..|by apply add_weight_ge|by apply add_weight_mono].
Qed.

Lemma last_step_mono now present m r l l' :
  m ∈ present -> well_formed pow now present [r] = true ->
  unsigned l = true -> unsigned l' = true -> ord l <= ord l' ->
  unsigned (last_step m l r) = true /\
  unsigned (last_step m l' r) = true /\
  ord l <= ord (last_step m l r) /\
  ord (last_step m l r) <= ord (last_step m l' r).
Proof.
  intros Hm Hw U U' Hl. apply well_formed_cons in Hw as [Hr _].
  unfold last_step. case_decide as E; [|done]. subst m.
  destruct (Hr Hm) as [Hn _]. rewrite !or_zero_unsigned by done.
  rewrite !Math_max_ord by done.
  split_and!; [by apply Math_max_unsigned..|lia|lia].
Qed.

Lemma well_formed_single now present r h :
  well_formed pow now present (r :: h) = true ->
  well_formed pow now present [r] = true /\ well_formed pow now present h = true.
Proof.
  change (r :: h) with ([r] ++ h). rewrite well_formed_app. by intros [? ?]%andb_true_iff.
Qed.

Lemma fold_count_mono now present m h : forall c c',
  m ∈ present -> well_formed pow now present h = true ->
  unsigned c = true -> unsigned c' = true -> ord c <= ord c' ->
  ord (foldl (count_step pow now m) c h) <= ord (foldl (count_step pow now m) c' h).
Proof.
  induction h as [|r h IH]; intros c c' Hm Hw U U' Hc; [done|].
  apply well_formed_single in Hw as [Hr Hw]. cbn [foldl].
  destruct (count_step_mono now present m r c c' Hm Hr U U' Hc) as (V & V' & _ & Hs).
  by apply IH.
Qed.

Lemma fold_last_mono now present m h : forall l l',
  m ∈ present -> well_formed pow now present h = true ->
  unsigned l = true -> unsigned l' = true -> ord l <= ord l' ->
  ord (foldl (last_step m) l h) <= ord (foldl (last_step m) l' h).
Proof.
  induction h as [|r h IH]; intros l l' Hm Hw U U' Hl; [done|].
  apply well_formed_single in Hw as [Hr Hw]. cbn [foldl].
  destruct (last_step_mono now present m r l l' Hm Hr U U' Hl) as (V & V' & _ & Hs).
  by apply IH.
Qed.

(** The member's two entries with and without the ride [r]. *)
Lemma member_insert_other now m h1 r h2 :
  driverId r <> m ->
  member_count pow now m (h1 ++ r :: h2) = member_count pow now m (h1 ++ h2) /\
  member_last m (h1 ++ r :: h2) = member_last m (h1 ++ h2).
Proof.
  intros Hne. unfold member_count, member_last. rewrite !foldl_app. cbn [foldl].
  unfold count_step at 2, last_step at 2. by rewrite !decide_False.
Qed.

Lemma member_insert_ge now present m h1 r h2 :
  m ∈ present -> well_formed pow now present (h1 ++ r :: h2) = true ->
  ord (member_count pow now m (h1 ++ h2)) <= ord (member_count pow now m (h1 ++ r :: h2)) /\
  ord (member_last m (h1 ++ h2)) <= ord (member_last m (h1 ++ r :: h2)).
Proof.
  intros Hm Hw. rewrite well_formed_app in Hw. apply andb_true_iff in Hw as [H1 H2].
  apply well_formed_single in H2 as [Hr H2].
  unfold member_count, member_last. rewrite !foldl_app. cbn [foldl].
  assert (unsigned (foldl (count_step pow now m) 0%float h1) = true) as Uc
    by (by eapply fold_count_unsigned).
  assert (unsigned (foldl (last_step m) 0%float h1) = true) as Ul
    by (by eapply fold_last_unsigned).
  destruct (count_step_mono now present m r _ _ Hm Hr Uc Uc ltac:(lia)) as (Vc & _ & Hc & _).
  destruct (last_step_mono now present m r _ _ Hm Hr Ul Ul ltac:(lia)) as (Vl & _ & Hl & _).
  split; [by eapply fold_count_mono|by eapply fold_last_mono].
Qed.

Lemma lex_ltb_spec p q :
  lex_ltb p q = true <-> p.1 < q.1 \/ (p.1 = q.1 /\ p.2 < q.2).
Proof.
  unfold lex_ltb.
  destruct (Z.ltb_spec p.1 q.1), (Z.eqb_spec p.1 q.1), (Z.ltb_spec p.2 q.2); cbn; lia.
Qed.

(** The keys with and without the ride [r]: only the key of its driver
    moves, and not down. *)
Lemma zkey_insert now present h1 r h2 a :
  well_formed pow now present (h1 ++ r :: h2) = true ->
  let k := zkey (tally_of pow now present (h1 ++ h2)) a in
  let k' := zkey (tally_of pow now present (h1 ++ r :: h2)) a in
  (a <> driverId r -> k' = k) /\ k.1 <= k'.1 /\ k.2 <= k'.2.
Proof.
  intros Hw k k'. unfold k, k', zkey, count_of, last_of.
  rewrite !tally_counts, !tally_lastDates.
  destruct (decide (a ∈ present)) as [Ha|Ha]; [|by cbn].
  cbn [JS.nullish_zero fst snd].
  destruct (member_insert_ge now present a h1 r h2 Ha Hw) as [Hc Hl].
  split; [|done]. intros Hne.
  by destruct (member_insert_other now a h1 r h2 ltac:(done)) as [-> ->].
Qed.

End OneMoreRide.

Section OneMoreRideFacts.
Variable pow : float -> float -> float.

(** X16. A usable ride put anywhere into the history changes the two
    entries of its driver only, and lowers neither: the weighted count is
    a rounded sum, and rounding to nearest keeps the order of sums. *)
Theorem ride_never_lowers_rank now present h1 r h2 :
  well_formed pow now present (h1 ++ r :: h2) = true ->
  let st := tally_of pow now present (h1 ++ h2) in
  let st' := tally_of pow now present (h1 ++ r :: h2) in
  (forall m, m <> driverId r ->
     count_of st' m = count_of st m /\ last_of st' m = last_of st m) /\
  (count_of st (driverId r) <=? count_of st' (driverId r))%float = true /\
  (last_of st (driverId r) <=? last_of st' (driverId r))%float = true.
Proof.
  intros Hw st st'.
  destruct (well_formed_insert pow now present h1 r h2 Hw) as [Hw0 _].
  pose proof (tally_of_unsigned pow _ _ _ Hw0) as Hst.
  pose proof (tally_of_unsigned pow _ _ _ Hw) as Hst'.
  split_and!.
  - intros m Hm.
    unfold st, st', count_of, last_of. rewrite !tally_counts, !tally_lastDates.
    case_decide; [|done]. cbn [JS.nullish_zero].
    by destruct (member_insert_other pow now m h1 r h2 ltac:(done)) as [-> ->].
  - destruct (Hst (driverId r)) as [U _], (Hst' (driverId r)) as [U' _].
    rewrite leb_ord by (by apply unsigned_not_nan). apply Z.leb_le.
    by destruct (zkey_insert pow now present h1 r h2 (driverId r) Hw) as (_ & H & _).
  - destruct (Hst (driverId r)) as [_ U], (Hst' (driverId r)) as [_ U'].
    rewrite leb_ord by (by apply unsigned_not_nan). apply Z.leb_le.
    by destruct (zkey_insert pow now present h1 r h2 (driverId r) Hw) as (_ & _ & H).
Qed.

(** X17. Nobody loses their turn to a ride of somebody else: if [d] is
    returned for a history, and a usable ride of another member is put
    anywhere into the history, [d] is returned still. *)
Theorem turn_survives_other_drives clock present h1 r h2 nowISO d :
  let now := reference_time clock nowISO in
  well_formed pow now present (h1 ++ r :: h2) = true ->
  nextDriver pow clock present (h1 ++ h2) nowISO = Some d ->
  driverId r <> d ->
  nextDriver pow clock present (h1 ++ r :: h2) nowISO = Some d.
Proof.
  intros now Hw Hd Hne.
  assert (present <> []) as Hp by (intros ->; done).
  rewrite nextDriver_nonempty in Hd |- * by done. fold now in Hd |- *.
  destruct (well_formed_insert pow now present h1 r h2 Hw) as [Hw0 _].
  pose proof (tally_of_unsigned pow _ _ _ Hw0) as Hst.
  pose proof (tally_of_unsigned pow _ _ _ Hw) as Hst'.
  pose proof (fun a => zkey_insert pow now present h1 r h2 a Hw) as Hk.
  set (st := tally_of pow now present (h1 ++ h2)) in *.
  set (st' := tally_of pow now present (h1 ++ r :: h2)) in *.
  cbv zeta in Hk.
  destruct (head_sort_least _ (zkey st) (fun a b => compareFn_key st a b Hst) present Hp)
    as (i & m & Hh & Hi & Hmin).
  destruct (head_sort_least _ (zkey st') (fun a b => compareFn_key st' a b Hst') present Hp)
    as (i' & m' & Hh' & Hi' & Hmin').
  rewrite Hh in Hd. injection Hd as ->. rewrite Hh'. f_equal.
  destruct (Hk d) as (Ed & _). specialize (Ed ltac:(done)).
  destruct (Hk m') as (_ & G1 & G2).
  specialize (Hmin i' m' Hi'). specialize (Hmin' i d Hi).
  rewrite !lex_ltb_spec in Hmin, Hmin'. rewrite Ed in Hmin'.
  destruct (zkey st d) as [c l], (zkey st m') as [c1 l1], (zkey st' m') as [c2 l2].
  cbn [fst snd] in *.
  assert (i = i') as <-.
  { destruct Hmin as [Hmin|[Hmin ?]], Hmin' as [Hmin'|[Hmin' ?]]; simplify_eq; lia. }
  congruence.
Qed.

End OneMoreRideFacts.

(** ** The properties at sample inputs *)

Lemma GroupRoute_reads_link_witness :
  GroupRoute_id (group_link Sample.group) = group_id Sample.group /\
  GroupRoute_id (group_link Sample.group +:+ "/") = EmptyString.
Proof. apply (GroupRoute_reads_link Sample.group). reflexivity. Defined.

(** Three clicks on the placeholder of a group without members. *)
Lemma suggestion_is_shown_witness :
  match suggestedDriver Reference.pow Sample.now (Some PageSample.solo)
          (presentAfter ["owner"; "owner"; "owner"]) Sample.old_and_recent with
  | Some d => d ∈ map member_id (shownMembers PageSample.solo)
  | None => members PageSample.solo = [] /\ presentAfter ["owner"; "owner"; "owner"] = []
  end.
Proof.
  apply (suggestion_is_shown Reference.pow Sample.now PageSample.solo
           ["owner"; "owner"; "owner"] Sample.old_and_recent).
  repeat constructor.
Defined.

Lemma placeholder_has_no_name_witness :
  suggestedDriver Reference.pow Sample.now (Some PageSample.solo)
    (presentAfter ["owner"; "owner"; "owner"]) Sample.old_and_recent
    = (if Nat.odd (length ["owner"; "owner"; "owner"]) then Some "owner" else None) /\
  forall d, driverName PageSample.solo d = dash.
Proof.
  apply (placeholder_has_no_name Reference.pow Sample.now PageSample.solo Sample.old_and_recent
           ["owner"; "owner"; "owner"]).
  - reflexivity.
  - repeat constructor.
Defined.

Lemma driverName_of_member_witness :
  driverName Sample.group (Some "B") = "Bob" /\
  forall d, d ∉ map member_id (members Sample.group) -> driverName Sample.group (Some d) = dash.
Proof.
  apply (driverName_of_member Sample.group (mkMember "B" "Bob" None None)).
  - right. left.
  - apply (bool_decide_unpack _). vm_compute. exact I.
  - discriminate.
Defined.

(** "A" drove 40 days ago, then has a ride without a date, then drove
    yesterday after "B". *)
Lemma unparsable_date_forgets_witness :
  let h1 := [Sample.ride "A" (Sample.now - 40 * Sample.day)] in
  let r := PageSample.undated "A" in
  let h2 := [Sample.ride "B" (Sample.now - Sample.day); Sample.ride "A" (Sample.now - Sample.day)] in
  let present := ["A"; "B"] in
  (counts (tally_of Reference.pow Sample.now present (h1 ++ [r])) !! "A" = Some nan /\
   lastDates (tally_of Reference.pow Sample.now present (h1 ++ [r])) !! "A" = Some nan) /\
  (counts (tally_of Reference.pow Sample.now present (h1 ++ r :: h2)) !! "A"
     = counts (tally_of Reference.pow Sample.now present h2) !! "A" /\
   lastDates (tally_of Reference.pow Sample.now present (h1 ++ r :: h2)) !! "A"
     = lastDates (tally_of Reference.pow Sample.now present h2) !! "A").
Proof.
  apply (unparsable_date_forgets Reference.pow Sample.now ["A"; "B"]
           [Sample.ride "A" (Sample.now - 40 * Sample.day)] (PageSample.undated "A")
           [Sample.ride "B" (Sample.now - Sample.day); Sample.ride "A" (Sample.now - Sample.day)]
           (Sample.ride "A" (Sample.now - Sample.day))).
  - reflexivity.
  - left.
  - reflexivity.
  - right. left.
  - reflexivity.
Defined.

Lemma last_drive_is_latest_witness :
  let l := last_of (tally_of Reference.pow Sample.now ["A"; "B"] Sample.old_and_recent) "A" in
  (l = 0%float \/ exists r, r ∈ Sample.old_and_recent /\ driverId r = "A" /\ l = date r) /\
  (0 <=? l)%float = true /\
  forall r, r ∈ Sample.old_and_recent -> driverId r = "A" -> (date r <=? l)%float = true.
Proof.
  apply (last_drive_is_latest Reference.pow Sample.now ["A"; "B"] Sample.old_and_recent "A").
  - vm_compute. reflexivity.
  - left.
Defined.

(** "A" drove 40 days ago; "B" and "C" never drove. *)
Lemma never_driven_goes_first_witness :
  exists i d,
    nextDriver Reference.pow 0 ["A"; "B"; "C"] Sample.forty_days (Some Sample.now) = Some d /\
    ["A"; "B"; "C"] !! i = Some d /\
    (forall r, r ∈ Sample.forty_days -> driverId r <> d) /\
    forall j m', (j < i)%nat -> ["A"; "B"; "C"] !! j = Some m' ->
      exists r, r ∈ Sample.forty_days /\ driverId r = m'.
Proof.
  apply (never_driven_goes_first Reference.pow 0 ["A"; "B"; "C"] Sample.forty_days
           (Some Sample.now) "C").
  - vm_compute. reflexivity.
  - intros r Hr _. apply list_elem_of_singleton in Hr as ->. vm_compute. reflexivity.
  - right. right. left.
  - intros r Hr. apply list_elem_of_singleton in Hr as ->. discriminate.
Defined.

Lemma present_order_only_breaks_ties_witness :
  nextDriver Reference.pow 0 ["A"; "B"] Sample.old_and_recent (Some Sample.now)
  = nextDriver Reference.pow 0 ["B"; "A"] Sample.old_and_recent (Some Sample.now).
Proof.
  apply (present_order_only_breaks_ties Reference.pow 0 ["A"; "B"] ["B"; "A"]
           Sample.old_and_recent (Some Sample.now)).
  - vm_compute. reflexivity.
  - apply perm_swap.
  - repeat constructor.
Defined.

(** A ride of "B" put before the two rides of the second scenario. *)
Lemma ride_never_lowers_rank_witness :
  let r := Sample.ride "B" (Sample.now - 40 * Sample.day) in
  let st := tally_of Reference.pow Sample.now ["A"; "B"] ([] ++ Sample.old_and_recent) in
  let st' := tally_of Reference.pow Sample.now ["A"; "B"] ([] ++ r :: Sample.old_and_recent) in
  (forall m, m <> driverId r ->
     count_of st' m = count_of st m /\ last_of st' m = last_of st m) /\
  (count_of st (driverId r) <=? count_of st' (driverId r))%float = true /\
  (last_of st (driverId r) <=? last_of st' (driverId r))%float = true.
Proof.
  apply (ride_never_lowers_rank Reference.pow Sample.now ["A"; "B"] []
           (Sample.ride "B" (Sample.now - 40 * Sample.day)) Sample.old_and_recent).
  vm_compute. reflexivity.
Defined.

(** "A" drove 40 days ago and "B" is next; then a ride of "C" is
    recorded. *)
Lemma turn_survives_other_drives_witness :
  nextDriver Reference.pow 0 ["A"; "B"; "C"]
    (Sample.forty_days ++ Sample.ride "C" (Sample.now - Sample.day) :: []) (Some Sample.now)
  = Some "B".
Proof.
  apply (turn_survives_other_drives Reference.pow 0 ["A"; "B"; "C"] Sample.forty_days
           (Sample.ride "C" (Sample.now - Sample.day)) [] (Some Sample.now) "B").
  - vm_compute. reflexivity.
  - vm_compute. reflexivity.
  - discriminate.
Defined.

(** ** Rounded differences and quotients *)

Module Quotient_facts.
Import Rounding Rounding_facts.
Local Open Scope Z_scope.




Lemma nearest_pow2 n v : 0 <= n -> Quotient.nearest (2 ^ n) v * 2 ^ n = round_to n v.
Proof. reflexivity. Qed.





Lemma quotient_rne_one v : Quotient.rne v 1 = rne v.
Proof.
  unfold Quotient.rne, rne. rewrite Z.div_1_r, Z.mul_1_l. done.
Qed.



(** *** Subtraction of finite numbers *)







(** *** Division of numbers that are not negative *)















End Quotient_facts.

Import Quotient_facts.

(** ** The decay property *)

Section DecayProperty.
Variable pow : float -> float -> float.
Local Open Scope Z_scope.


End DecayProperty.


(** There the two weights differ, and the count of "A" is the smaller. *)
Example older_drive_count_smaller :
  (count_of (tally_of Reference.pow Sample.now ["A"; "B"]
               [Sample.ride "A" (Sample.now - 400 * Sample.day)]) "A"
   <? count_of (tally_of Reference.pow Sample.now ["A"; "B"]
                  [Sample.ride "B" (Sample.now - Sample.day)]) "B")%float = true.
Proof. vm_compute. reflexivity. Qed.

(** Two rides dated after the reference time have both elapsed [0]
    months: the counts are equal, and the later date alone prefers the
    older-drive member. *)
Example older_drive_after_now :
  let rX := Sample.ride "A" (Sample.now + Sample.day) in
  let rY := Sample.ride "B" (Sample.now + 2 * Sample.day) in
  (count_of (tally_of Reference.pow Sample.now ["A"; "B"] [rX]) "A"
   <? count_of (tally_of Reference.pow Sample.now ["A"; "B"] [rY]) "B")%float = false /\
  nextDriver Reference.pow 0 ["B"; "A"] [rX; rY] (Some Sample.now) = Some "A".
Proof. vm_compute. split; reflexivity. Qed.
